(** * AutoChip project-architecture scripts: reference resolution, module and
    test-case extraction, schema validation.

    A shallow embedding of [extract_modules.py], [extract_testcases.py] and
    [validate_schema.py] (directory [skills/autochip_proj_arch/scripts]),
    followed by the properties of the specification that concern them. *)

From Stdlib Require Import ZArith Ascii String.
From stdpp Require Import base option list strings gmap pretty.

Open Scope string_scope.
Open Scope list_scope.

#[local] Set Warnings "-clear-no-such-hyp".

(** ** Parsed JSON values

    What [json.load] returns.  A dict keeps its items in insertion order
    (the order of [obj.items()], which fixes the order in which the resolver
    opens files), so it is an association list; its keys are distinct.
    Numbers are the integer literals: the scripts only test numbers for
    truthiness and copy them. *)

#[warnings="-register-all"]
Inductive json : Type :=
| JNull
| JBool (b : bool)
| JNum (n : Z)
| JStr (s : string)
| JList (items : list json)
| JDict (items : list (string * json)).

Abbreviation dict := (list (string * json)).

(** [d.get(k)]: [None] when the key is absent. *)
Fixpoint dict_get (k : string) (d : dict) : option json :=
  match d with
  | [] => None
  | (k', v) :: d' => if decide (k = k') then Some v else dict_get k d'
  end.

(** [k in d]. *)
Definition dict_has (k : string) (d : dict) : bool :=
  bool_decide (is_Some (dict_get k d)).

(** [d.get(k, default)]. *)
Definition dict_get_default (k : string) (dflt : json) (d : dict) : json :=
  default dflt (dict_get k d).

(** Python truthiness of a parsed value ([if v:], [bool(v)]). *)
Definition truthy (v : json) : bool :=
  match v with
  | JNull => false
  | JBool b => b
  | JNum n => negb (n =? 0)%Z
  | JStr s => negb (bool_decide (s = ""))
  | JList l => negb (bool_decide (l = []))
  | JDict d => negb (bool_decide (d = []))
  end.

(** [s.startswith(p)]. *)
Definition startswith (s p : string) : bool := String.prefix p s.

(** Nesting depth, the measure of the extractors' recursion. *)
Fixpoint depth (v : json) : nat :=
  match v with
  | JList l => S (foldr (λ x n, depth x `max` n) 0 l)
  | JDict d => S (foldr (λ kv n, depth kv.2 `max` n) 0 d)
  | _ => 0
  end.

(** ** Exceptions and results *)

(** One step of a [ValidationError.path]: a key or an index. *)
Inductive path_elem := Key (k : string) | Index (i : nat).

(** The classes derived from [Exception] that the scripts raise or catch,
    each with the text of [str(e)]; a [ValidationError] has its [path] and
    its [message]. *)
Inductive exn :=
| FileNotFoundError (msg : string)
| JSONDecodeError (msg : string)
| ValidationError (path : list path_elem) (message : string)
| AttributeError (msg : string)
| TypeError (msg : string)
| RecursionError
| OtherException (msg : string).

Inductive result (A : Type) :=
| Ok (a : A)
| Raise (e : exn).
Arguments Ok {A} a.
Arguments Raise {A} e.

#[global] Instance path_elem_eq_dec : EqDecision path_elem.
Proof. solve_decision. Defined.

#[global] Instance exn_eq_dec : EqDecision exn.
Proof. solve_decision. Defined.

#[global] Instance result_eq_dec `{EqDecision A} : EqDecision (result A).
Proof. solve_decision. Defined.

#[global] Instance result_ret : MRet result := λ A a, Ok a.
#[global] Instance result_bind : MBind result := λ A B f m,
  match m with Ok a => f a | Raise e => Raise e end.
#[global] Instance result_fmap : FMap result := λ A B f m,
  match m with Ok a => Ok (f a) | Raise e => Raise e end.

(** A comprehension whose body may raise: elements are evaluated left to
    right and the first exception ends it. *)
Definition traverse {A B : Type} (f : A → result B) : list A → result (list B) :=
  fix go (l : list A) : result (list B) :=
    match l with
    | [] => Ok []
    | x :: l' => y ← f x; ys ← go l'; Ok (y :: ys)
    end.

(** [type(v).__name__]. *)
Definition type_name (v : json) : string :=
  match v with
  | JNull => "NoneType"
  | JBool _ => "bool"
  | JNum _ => "int"
  | JStr _ => "str"
  | JList _ => "list"
  | JDict _ => "dict"
  end.

(** The text of the [AttributeError] for [v.attr]. *)
Definition no_attribute (v : json) (attr : string) : string :=
  "'" +:+ type_name v +:+ "' object has no attribute '" +:+ attr +:+ "'".

(** ** Hashable values

    What a [set] or the keys of a [dict] hold.  Equal values hash alike:
    [True == 1] and [False == 0].  Lists and dicts are unhashable. *)

Inductive key := KNone | KInt (n : Z) | KStr (s : string).

#[global] Instance key_eq_dec : EqDecision key.
Proof. solve_decision. Defined.

#[global] Instance key_countable : Countable key.
Proof.
  refine (inj_countable'
    (λ k, match k with
          | KNone => inl ()
          | KInt n => inr (inl n)
          | KStr s => inr (inr s)
          end)
    (λ x, match x with
          | inl _ => KNone
          | inr (inl n) => KInt n
          | inr (inr s) => KStr s
          end) _).
  by intros [].
Defined.

Definition hash_key (v : json) : result key :=
  match v with
  | JNull => Ok KNone
  | JBool b => Ok (KInt (if b then 1 else 0))
  | JNum n => Ok (KInt n)
  | JStr s => Ok (KStr s)
  | _ => Raise (TypeError ("unhashable type: '" +:+ type_name v +:+ "'"))
  end.

(** ** Paths ([pathlib.PurePosixPath]) *)

Record path := Path { absolute : bool; parts : list string }.

#[global] Instance path_eq_dec : EqDecision path.
Proof. solve_decision. Defined.

(** The components of a string between its slashes. *)
Fixpoint split_slash (s : string) : list string :=
  match s with
  | EmptyString => [""]
  | String c s' =>
      if decide (c = "/"%char) then "" :: split_slash s'
      else match split_slash s' with
           | x :: xs => String c x :: xs
           | [] => [String c ""]
           end
  end.

(** Parsing drops empty and ["."] components and keeps [".."]. *)
Definition components (s : string) : list string :=
  filter (λ c, c ≠ "" ∧ c ≠ ".") (split_slash s).

(** [base / rel]. *)
Definition joinpath (base : path) (rel : string) : path :=
  if startswith rel "/" then Path true (components rel)
  else Path (absolute base) (parts base ++ components rel).

(** [p.parent]: the path without its last component; the anchor is its own
    parent. *)
Definition parent (p : path) : path :=
  Path (absolute p) (removelast (parts p)).

(** [str(p)]. *)
Definition path_str (p : path) : string :=
  if absolute p then "/" +:+ String.concat "/" (parts p)
  else match parts p with
       | [] => "."
       | _ => String.concat "/" (parts p)
       end.

(** ** Reference resolver: [load_json_with_refs]

    The same function stands at the head of the three scripts. *)

(** What a path holds: a JSON text that parses, or one that does not
    ([json.load] raises [JSONDecodeError] with the given message). *)
Inductive file :=
| Text (doc : json)
| Malformed (msg : string).

Section Resolver.
(** The file system, and the text of the operating system's error for a
    missing file ([str] of the [FileNotFoundError] that [open] raises). *)
Variable fs : path → option file.
Variable enoent : path → string.

(** [ref_file.exists()]. *)
Definition exists_file (p : path) : bool := bool_decide (is_Some (fs p)).

(** [with open(p, 'r') as f: json.load(f)]. *)
Definition open_json (p : path) : result json :=
  match fs p with
  | None => Raise (FileNotFoundError (enoent p))
  | Some (Malformed msg) => Raise (JSONDecodeError msg)
  | Some (Text doc) => Ok doc
  end.

Definition is_relative (ref_path : string) : bool :=
  startswith ref_path "./" || startswith ref_path "../".

(** [resolve_refs(obj, current_base)].  [limit] is the recursion budget of
    the interpreter, counted in files opened one from inside another;
    running out of it raises [RecursionError].  The nesting inside one
    document is finite and is not charged. *)
Fixpoint resolve_refs (limit : nat) : json → path → result json :=
  fix go (obj : json) (current_base : path) {struct obj} : result json :=
    match obj with
    | JDict d =>
        match dict_get "$ref" d with
        | Some ref_path =>
            match ref_path with
            | JStr ref_path =>
                if is_relative ref_path then
                  let ref_file := joinpath current_base ref_path in
                  if negb (exists_file ref_file) then
                    Raise (FileNotFoundError
                             ("Referenced file not found: " +:+ path_str ref_file))
                  else
                    ref_data ← open_json ref_file;
                    match limit with
                    | O => Raise RecursionError
                    | S limit' => resolve_refs limit' ref_data (parent ref_file)
                    end
                else Ok obj
            | _ => Raise (AttributeError (no_attribute ref_path "startswith"))
            end
        | None =>
            JDict <$> traverse (λ kv, v ← go kv.2 current_base; Ok (kv.1, v)) d
        end
    | JList l => JList <$> traverse (λ item, go item current_base) l
    | _ => Ok obj
    end.

(** [load_json_with_refs(file_path)]. *)
Definition load_json_with_refs (limit : nat) (file_path : path) : result json :=
  data ← open_json file_path;
  resolve_refs limit data (parent file_path).

End Resolver.

(** ** Tree extractors *)

Section Extractors.
(** [repr] of a list or a dict, as an f-string prints it; its text is
    never inspected. *)
Variable repr : json → string.

(** [str(v)], what [f"{v}"] inserts. *)
Definition py_str (v : json) : string :=
  match v with
  | JNull => "None"
  | JBool true => "True"
  | JBool false => "False"
  | JNum n => pretty n
  | JStr s => s
  | _ => repr v
  end.

(** [f"{prefix}/{name}" if prefix else name]: the full name of a module
    under [parent_name] in [extract_modules], the [full_module_path]
    handed to the sub-modules in [extract_testcases]. *)
Definition join_name (prefix name : json) : json :=
  if truthy prefix then JStr (py_str prefix +:+ "/" +:+ py_str name) else name.

(** [for submodule in submodules: if isinstance(submodule, dict):
    out.extend(f(submodule))], with the [visited] set that [f] updates. *)
Definition for_each_dict {A : Type}
    (f : json → gset key → result (list A * gset key)) :
    list json → gset key → result (list A * gset key) :=
  fix go (l : list json) (visited : gset key) :=
    match l with
    | [] => Ok ([], visited)
    | x :: l' =>
        '(out, visited) ← match x return result (list A * gset key) with
                          | JDict _ => f x visited
                          | _ => Ok ([], visited)
                          end;
        '(out', visited) ← go l' visited;
        Ok ((out ++ out')%list, visited)
    end.

(** The walk over [data.get('submodules')], shared by the two
    extractors: a non-empty list is walked element by element, a
    non-empty dict is visited itself, anything else is skipped. *)
Definition walk_submodules {A : Type}
    (f : json → gset key → result (list A * gset key))
    (submodules : option json) (visited : gset key) :
    result (list A * gset key) :=
  match submodules with
  | Some submodules =>
      if truthy submodules then
        match submodules with
        | JList l => for_each_dict f l visited
        | JDict _ => f submodules visited
        | _ => Ok ([], visited)
        end
      else Ok ([], visited)
  | None => Ok ([], visited)
  end.

(** *** [extract_modules.py] *)

Record module_info := ModuleInfo {
  name : json;
  filepath : json;
  docpath : json;
  parent_field : json;
  full_path : json;
  has_test : bool;
  has_submodules : bool
}.

(** [all(key in data for key in ['name', 'filepath', 'docpath'])]. *)
Definition has_required (d : dict) : bool :=
  dict_has "name" d && dict_has "filepath" d && dict_has "docpath" d.

Definition is_module (data : json) : bool :=
  match data with
  | JDict d => has_required d
  | _ => false
  end.

(** The dict literal bound to [module_info]. *)
Definition make_module_info (d : dict) (parent_name : json) : module_info :=
  let module_name := dict_get_default "name" JNull d in
  {| name := module_name;
     filepath := dict_get_default "filepath" (JStr "") d;
     docpath := dict_get_default "docpath" (JStr "") d;
     parent_field := if truthy parent_name then parent_name else JNull;
     full_path := join_name parent_name module_name;
     has_test := dict_has "test" d;
     has_submodules := truthy (dict_get_default "submodules" JNull d) |}.

(** [extract_modules(data, parent_name, visited)]: the records appended
    and the [visited] set as the call leaves it.  [limit] bounds the depth
    of the recursive calls still allowed. *)
Fixpoint extract_modules (limit : nat) (data : json) (parent_name : json)
    (visited : gset key) : result (list module_info * gset key) :=
  match data with
  | JDict d =>
      if has_required d then
        let module_name := dict_get_default "name" JNull d in
        let full_name := join_name parent_name module_name in
        k ← hash_key full_name;
        if decide (k ∈ visited) then Ok ([], visited)
        else
          let visited := {[k]} ∪ visited in
          let module_info := make_module_info d parent_name in
          '(subs, visited) ←
            walk_submodules
              (λ submodule visited,
                 match limit with
                 | O => Raise RecursionError
                 | S limit' => extract_modules limit' submodule full_name visited
                 end)
              (dict_get "submodules" d) visited;
          Ok (module_info :: subs, visited)
      else Ok ([], visited)
  | _ => Ok ([], visited)
  end.

(** *** [extract_testcases.py] *)

Record testcase_info := TestcaseInfo {
  module : json;
  module_path : json;
  test_name : json;
  run_cmd : json;
  output_log_path : json;
  output_wave_path : json;
  testbench_path : json;
  golden_model_path : json
}.

(** The dict literal bound to [testcase_info]. *)
Definition make_testcase_info (current_module module_name : json)
    (test_config : dict) (idx : nat) (tc : dict) : testcase_info :=
  {| module := current_module;
     module_path := module_name;
     test_name := dict_get_default "name" (JStr ("test_" +:+ pretty idx)) tc;
     run_cmd := dict_get_default "run_cmd" (JStr "") tc;
     output_log_path := dict_get_default "output_log_path" (JList []) tc;
     output_wave_path := dict_get_default "output_wave_path" JNull tc;
     testbench_path := dict_get_default "testbench_path" (JStr "") test_config;
     golden_model_path := dict_get_default "golden_model_path" (JStr "") test_config |}.

(** [for idx, tc in enumerate(test_case_list)], counting from [idx]. *)
Fixpoint enumerate_cases (current_module module_name : json)
    (test_config : dict) (idx : nat) (test_case_list : list json) :
    list testcase_info :=
  match test_case_list with
  | [] => []
  | tc :: rest =>
      (match tc with
       | JDict tc => [make_testcase_info current_module module_name test_config idx tc]
       | _ => []
       end ++ enumerate_cases current_module module_name test_config (S idx) rest)%list
  end.

(** The records of one module's own [test] entry. *)
Definition own_testcases (current_module module_name : json) (d : dict) :
    list testcase_info :=
  match dict_get "test" d with
  | Some (JDict test_config) =>
      if truthy (JDict test_config) then
        match dict_get_default "test_case" (JList []) test_config with
        | JList test_case_list =>
            enumerate_cases current_module module_name test_config 0 test_case_list
        | _ => []
        end
      else []
  | _ => []
  end.

(** [extract_testcases(data, module_name, visited)]. *)
Fixpoint extract_testcases (limit : nat) (data : json) (module_name : json)
    (visited : gset key) : result (list testcase_info * gset key) :=
  match data with
  | JDict d =>
      match dict_get "name" d with
      | Some current_module =>
          k ← hash_key current_module;
          if decide (k ∈ visited) then Ok ([], visited)
          else
            let visited := {[k]} ∪ visited in
            let testcases := own_testcases current_module module_name d in
            let full_module_path := join_name module_name current_module in
            '(subs, visited) ←
              walk_submodules
                (λ submodule visited,
                   match limit with
                   | O => Raise RecursionError
                   | S limit' =>
                       extract_testcases limit' submodule full_module_path visited
                   end)
                (dict_get "submodules" d) visited;
            Ok ((testcases ++ subs)%list, visited)
      | None => Ok ([], visited)
      end
  | _ => Ok ([], visited)
  end.

End Extractors.

(** ** Schema validator adapter: [validate_schema.py] *)

(** [str(e)], the text that the generic handler prints.  Every exception
    carries its text; a [ValidationError], which that handler never sees,
    stands here with its [message]. *)
Definition exn_str (e : exn) : string :=
  match e with
  | FileNotFoundError msg => msg
  | JSONDecodeError msg => msg
  | ValidationError _ message => message
  | AttributeError msg => msg
  | TypeError msg => msg
  | RecursionError => "maximum recursion depth exceeded"
  | OtherException msg => msg
  end.

(** [str(p)] for a step of [e.path]. *)
Definition path_elem_str (p : path_elem) : string :=
  match p with
  | Key k => k
  | Index i => pretty i
  end.

Section Validator.
Variable fs : path → option file.
Variable enoent : path → string.

(** The [jsonschema] engine: the type of its resolvers,
    [RefResolver.from_schema(schema, store=...)] and
    [validate(instance=..., schema=..., resolver=...)].  Either call may
    raise anything. *)
Variable RefResolver : Type.
Variable from_schema : json → gmap key json → result RefResolver.
Variable validate : json → json → RefResolver → result ().

(** The body of the [try]. *)
Definition validate_json_try (limit : nat) (schema_path json_path : path)
    (resolve_refs : bool) : result () :=
  schema ← open_json fs enoent schema_path;
  data ← (if resolve_refs then load_json_with_refs fs enoent limit json_path
          else open_json fs enoent json_path);
  id ← match schema with
       | JDict d => Ok (dict_get_default "$id" (JStr "") d)
       | _ => Raise (AttributeError (no_attribute schema "get"))
       end;
  k ← hash_key id;
  let schema_store : gmap key json := {[ k := schema ]} in
  resolver ← from_schema schema schema_store;
  validate data schema resolver.

(** [validate_json(schema_path, json_path, resolve_refs)]: the tuple
    [(is_valid, error_message)]. *)
Definition validate_json (limit : nat) (schema_path json_path : path)
    (resolve_refs : bool) : bool * option string :=
  match validate_json_try limit schema_path json_path resolve_refs with
  | Ok _ => (true, None)
  | Raise (FileNotFoundError e) => (false, Some ("File not found: " +:+ e))
  | Raise (JSONDecodeError e) =>
      (false, Some ("Invalid JSON format in " +:+ path_str json_path +:+ ": " +:+ e))
  | Raise (ValidationError e_path e_message) =>
      let error_path :=
        match e_path with
        | [] => "root"
        | _ => String.concat " -> " (path_elem_str <$> e_path)
        end in
      (false, Some ("Validation error at '" +:+ error_path +:+ "': " +:+ e_message))
  | Raise e => (false, Some ("Unexpected error: " +:+ exn_str e))
  end.

End Validator.

(** ** Reports of [extract_modules.py]: [build_tree], [print_tree], [main] *)

(** The nested dicts that [build_tree] makes: a node is [None] or a dict of
    nodes, in insertion order. *)
#[warnings="-register-all"]
Inductive tree : Type :=
| TNone
| TDict (items : list (string * tree)).

(** [items.get(k)], [k in items] and [items[k] = v] on the items of a node. *)
Fixpoint tree_get (k : string) (items : list (string * tree)) : option tree :=
  match items with
  | [] => None
  | (k', t) :: items' => if decide (k = k') then Some t else tree_get k items'
  end.

Definition tree_has (k : string) (items : list (string * tree)) : bool :=
  bool_decide (is_Some (tree_get k items)).

Fixpoint tree_set (k : string) (v : tree) (items : list (string * tree)) :
    list (string * tree) :=
  match items with
  | [] => [(k, v)]
  | (k', t) :: items' =>
      if decide (k = k') then (k', v) :: items' else (k', t) :: tree_set k v items'
  end.

(** The text of the [TypeError] for [part not in None]. *)
Definition none_not_iterable : string :=
  "argument of type 'NoneType' is not iterable".

(** The loop over [enumerate(parts)] in [build_tree], from the node
    [current]: the node as the loop leaves it. *)
Fixpoint tree_insert (parts : list string) (current : tree) : result tree :=
  match parts with
  | [] => Ok current
  | part :: rest =>
      match current with
      | TNone => Raise (TypeError none_not_iterable)
      | TDict items =>
          let last := bool_decide (rest = []) in
          let items :=
            if tree_has part items then items
            else tree_set part (if last then TNone else TDict []) items in
          if last then Ok (TDict items)
          else
            child ← tree_insert rest (default TNone (tree_get part items));
            Ok (TDict (tree_set part child items))
      end
  end.

(** [v.split('/')]. *)
Definition py_split (v : json) : result (list string) :=
  match v with
  | JStr s => Ok (split_slash s)
  | _ => Raise (AttributeError (no_attribute v "split"))
  end.

(** The loop over [mods] in [build_tree], from the tree built so far. *)
Fixpoint build_tree_from (mods : list module_info) (t : tree) : result tree :=
  match mods with
  | [] => Ok t
  | mod_ :: mods' =>
      parts ← py_split (full_path mod_);
      t ← tree_insert parts t;
      build_tree_from mods' t
  end.

(** [build_tree(mods)]. *)
Definition build_tree (mods : list module_info) : result tree :=
  build_tree_from mods (TDict []).

(** A line feed, and [s * n]. *)
Definition nl : string := String (ascii_of_nat 10) "".

Fixpoint str_repeat (s : string) (n : nat) : string :=
  match n with
  | O => ""
  | S n' => s +:+ str_repeat s n'
  end.

(** [print_tree(tree, indent, prefix)]: what it writes. *)
Fixpoint print_tree (t : tree) (indent : nat) (prefix : string) : string :=
  match t with
  | TNone => ""
  | TDict items =>
      (fix each (items : list (string * tree)) : string :=
         match items with
         | [] => ""
         | (name, children) :: items' =>
             let is_last := bool_decide (items' = []) in
             let connector := if is_last then "└── " else "├── " in
             str_repeat "  " indent +:+ prefix +:+ connector +:+ name +:+ nl
             +:+ match children with
                 | TNone => ""
                 | TDict _ =>
                     let new_prefix := if is_last then "    " else "│   " in
                     print_tree children (S indent) (prefix +:+ new_prefix)
                 end
             +:+ each items'
         end) items
  end.

Inductive output_format := FormatTable | FormatJson | FormatTree.

Section MainModules.
Variable fs : path → option file.
Variable enoent : path → string.
Variable repr : json → string.

(** The recursion budgets of the resolver and of the extractor. *)
Variable resolve_limit extract_limit : nat.

(** What stands outside: making the destination of [-o] ([mkdir] and
    [open], nothing to do for the standard output), [json.dump] of the
    records, and [format(v, '<width')] of a value of a record. *)
Variable open_output : result ().
Variable dump_json : list module_info → string.
Variable format_left : nat → json → result string.

(** One row of the table. *)
Definition table_row (mod_ : module_info) : result string :=
  let test_status := if has_test mod_ then "✓     " else "-     " in
  c1 ← format_left 40 (full_path mod_);
  c2 ← format_left 30 (filepath mod_);
  c3 ← format_left 30 (docpath mod_);
  Ok (c1 +:+ " | " +:+ c2 +:+ " | " +:+ c3 +:+ " | " +:+ test_status +:+ nl).

(** The rows written one after the other: the text written, and the
    exception that ended it, if any. *)
Fixpoint table_rows (mods : list module_info) : string * option exn :=
  match mods with
  | [] => ("", None)
  | mod_ :: mods' =>
      match table_row mod_ with
      | Raise e => ("", Some e)
      | Ok row => let '(text, failure) := table_rows mods' in (row +:+ text, failure)
      end
  end.

Definition table_header : string :=
  "Module Path" +:+ str_repeat " " 29 +:+ " | " +:+
  "File" +:+ str_repeat " " 26 +:+ " | " +:+
  "Doc" +:+ str_repeat " " 27 +:+ " | " +:+
  "Test" +:+ str_repeat " " 2 +:+ nl.

(** The branch of [args.format]: the text written, and the exception that
    ended it, if any. *)
Definition render (format : output_format) (modules : list module_info) :
    string * option exn :=
  match format with
  | FormatJson => (dump_json modules +:+ nl, None)
  | FormatTree =>
      match build_tree modules with
      | Raise e => ("", Some e)
      | Ok t => (print_tree t 0 "", None)
      end
  | FormatTable =>
      let '(text, failure) := table_rows modules in
      (table_header +:+ str_repeat "-" 125 +:+ nl +:+ text, failure)
  end.

(** What the three [except] clauses print. *)
Definition report_error (json_path : path) (e : exn) : string :=
  match e with
  | JSONDecodeError msg =>
      "Error: Invalid JSON format in " +:+ path_str json_path +:+ ": " +:+ msg +:+ nl
  | _ => "Error: " +:+ exn_str e +:+ nl
  end.

(** [main()] after the arguments are parsed: the exit code, the text
    written to the output and the text printed on the standard error. *)
Definition main_modules (json_path : path) (format : output_format) :
    nat * string * string :=
  if negb (exists_file fs json_path) then
    (1, "", "Error: JSON file not found: " +:+ path_str json_path +:+ nl)
  else
    match data ← load_json_with_refs fs enoent resolve_limit json_path;
          extract_modules repr extract_limit data (JStr "") ∅ with
    | Raise e => (1, "", report_error json_path e)
    | Ok (modules, _) =>
        if bool_decide (modules = []) then
          (1, "", "No modules found in the JSON file." +:+ nl)
        else
          match open_output with
          | Raise e => (1, "", report_error json_path e)
          | Ok _ =>
              match render format modules with
              | (text, Some e) => (1, text, report_error json_path e)
              | (text, None) =>
                  (0, text +:+ nl +:+ "Total: " +:+ pretty (length modules)
                      +:+ " module(s)" +:+ nl, "")
              end
          end
    end.

End MainModules.

(** ** The summary of [extract_testcases.py]: [by_module] *)

(** One entry of [by_module]: the key, the module as it was first seen and
    its test cases. *)
Definition module_group : Type := key * json * list testcase_info.

(** [by_module[module].append(tc)], after [by_module[module] = []] when the
    module is new. *)
Fixpoint by_module_append (k : key) (module : json) (tc : testcase_info)
    (by_module : list module_group) : list module_group :=
  match by_module with
  | [] => [(k, module, [tc])]
  | (k', module', cases) :: by_module' =>
      if decide (k = k') then (k', module', cases ++ [tc]) :: by_module'
      else (k', module', cases) :: by_module_append k module tc by_module'
  end.

(** [by_module.get(module)]: the module as it was first seen and its test
    cases. *)
Fixpoint by_module_get (k : key) (by_module : list module_group) :
    option (json * list testcase_info) :=
  match by_module with
  | [] => None
  | (k', module', cases) :: by_module' =>
      if decide (k = k') then Some (module', cases) else by_module_get k by_module'
  end.

(** The loop that groups the test cases, from the groups made so far. *)
Fixpoint group_by_module_from (testcases : list testcase_info)
    (by_module : list module_group) : result (list module_group) :=
  match testcases with
  | [] => Ok by_module
  | tc :: testcases' =>
      k ← hash_key (module tc);
      group_by_module_from testcases' (by_module_append k (module tc) tc by_module)
  end.

Definition group_by_module (testcases : list testcase_info) :
    result (list module_group) :=
  group_by_module_from testcases [].

(** ** Vocabulary of the specification *)

(** A relative-reference node somewhere in a document: a mapping, at any
    depth, whose ['$ref'] is a string that begins with ['./'] or ['../']. *)
Fixpoint has_relative_ref (v : json) : bool :=
  match v with
  | JDict d =>
      match dict_get "$ref" d with
      | Some (JStr s) => is_relative s
      | _ => false
      end || existsb (λ kv, has_relative_ref kv.2) d
  | JList l => existsb has_relative_ref l
  | _ => false
  end.

(** The same, not looking below a mapping that has a ['$ref'] key: the
    resolver returns such a mapping as it is when the reference is not
    relative. *)
Fixpoint exposes_relative_ref (v : json) : bool :=
  match v with
  | JDict d =>
      match dict_get "$ref" d with
      | Some (JStr s) => is_relative s
      | Some _ => false
      | None => existsb (λ kv, exposes_relative_ref kv.2) d
      end
  | JList l => existsb exposes_relative_ref l
  | _ => false
  end.

(** The relative references that the resolver follows from a document, in
    the order it meets them. *)
Fixpoint refs_of (v : json) : list string :=
  match v with
  | JDict d =>
      match dict_get "$ref" d with
      | Some (JStr s) => if is_relative s then [s] else []
      | Some _ => []
      | None => flat_map (λ kv, refs_of kv.2) d
      end
  | JList l => flat_map refs_of l
  | _ => []
  end.

(** An acyclic reference graph: the files can be numbered so that every
    reference of a file, taken from that file's directory, leads to a file
    of smaller number. *)
Definition ranked (fs : path → option file) (rank : path → nat) : Prop :=
  ∀ p doc r, fs p = Some (Text doc) → r ∈ refs_of doc →
    rank (joinpath (parent p) r) < rank p.

Definition acyclic (fs : path → option file) : Prop := ∃ rank, ranked fs rank.


(** The same, not looking below a mapping that has a ['$ref'] key. *)
Fixpoint exposes_missing_ref (fs : path → option file) (base : path) (v : json) : bool :=
  match v with
  | JDict d =>
      match dict_get "$ref" d with
      | Some (JStr s) => is_relative s && negb (exists_file fs (joinpath base s))
      | Some _ => false
      | None => existsb (λ kv, exposes_missing_ref fs base kv.2) d
      end
  | JList l => existsb (exposes_missing_ref fs base) l
  | _ => false
  end.

(** The ordinary treatment of a mapping (the comprehension over
    [obj.items()]), on its own. *)
Definition resolve_mapping (fs : path → option file) (enoent : path → string)
    (limit : nat) (d : dict) (current_base : path) : result json :=
  JDict <$> traverse (λ kv, v ← resolve_refs fs enoent limit kv.2 current_base;
                            Ok (kv.1, v)) d.

(** The treatment of a mapping as a reference node (the branch under
    [if '$ref' in obj]), on its own. *)
Definition resolve_reference (fs : path → option file) (enoent : path → string)
    (limit : nat) (d : dict) (ref_path : json) (current_base : path) : result json :=
  match ref_path with
  | JStr ref_path =>
      if is_relative ref_path then
        let ref_file := joinpath current_base ref_path in
        if negb (exists_file fs ref_file) then
          Raise (FileNotFoundError ("Referenced file not found: " +:+ path_str ref_file))
        else
          ref_data ← open_json fs enoent ref_file;
          match limit with
          | O => Raise RecursionError
          | S limit' => resolve_refs fs enoent limit' ref_data (parent ref_file)
          end
      else Ok (JDict d)
  | _ => Raise (AttributeError (no_attribute ref_path "startswith"))
  end.


(** The mappings that [walk_submodules] hands to its visitor. *)
Definition submodule_of (submodules : option json) (c : dict) : Prop :=
  submodules = Some (JDict c) ∨ ∃ l, submodules = Some (JList l) ∧ JDict c ∈ l.

(** The module nodes that a walk can reach.  [descends qualifies step data p
    chain d q]: starting at [data] with the path [p], the walk through the
    ['submodules'] of qualifying mappings arrives at the mapping [d] with the
    path [q], below the ancestors whose names are [chain], outermost first.
    [step d p] is the path that the sub-modules of [d] receive when [d]
    received [p]. *)
Inductive descends (qualifies : dict → bool) (step : dict → json → json) :
    json → json → list json → dict → json → Prop :=
| descends_here d p :
    qualifies d = true →
    descends qualifies step (JDict d) p [] d p
| descends_sub d p c chain m q :
    qualifies d = true →
    submodule_of (dict_get "submodules" d) c →
    descends qualifies step (JDict c) (step d p) chain m q →
    descends qualifies step (JDict d) p
      (dict_get_default "name" JNull d :: chain) m q.

(** [isinstance(data, dict) and 'name' in data], on the dict. *)
Definition has_name (d : dict) : bool := dict_has "name" d.

(** The path that [extract_modules] hands to the sub-modules of [d]: the
    full path of the record of [d]. *)
Definition modules_step (repr : json → string) (d : dict) (parent_name : json) : json :=
  full_path (make_module_info repr d parent_name).

(** The path that [extract_testcases] hands to the sub-modules of [d]:
    [full_module_path]. *)
Definition testcases_step (repr : json → string) (d : dict) (module_name : json) : json :=
  join_name repr module_name (dict_get_default "name" JNull d).


(** The test-case records whose module has the key [k]. *)
Definition records_of (k : key) (tcs : list testcase_info) : list testcase_info :=
  filter (λ r, hash_key (module r) = Ok k) tcs.

(** The records [out] of a walk from [data] that found [v] visited and
    leaves [v']: their modules are new to [v] and in [v'], and the records
    of any one name are the test cases of one module reached from [data]. *)
Definition one_source (repr : json → string) (data p : json)
    (out : list testcase_info) (v v' : gset key) : Prop :=
  v ⊆ v' ∧
  (∀ r, r ∈ out → ∃ k, hash_key (module r) = Ok k ∧ (k ∉ v) ∧ (k ∈ v')) ∧
  (∀ k, records_of k out = [] ∨
        ∃ chain d q,
          descends has_name (testcases_step repr) data p chain d q ∧
          hash_key (dict_get_default "name" JNull d) = Ok k ∧
          records_of k out = own_testcases (dict_get_default "name" JNull d) q d).

(** In the list [ms] every record either has [p0] in its [parent] field or
    stands after the record whose full path is that field. *)
Definition parents_first (p0 : json) (ms : list module_info) : Prop :=
  ∀ i r, ms !! i = Some r →
    parent_field r = p0 ∨
    ∃ j r', j < i ∧ ms !! j = Some r' ∧ full_path r' = parent_field r.



(** The node at the end of a path of names in a tree, and a leaf there. *)
Fixpoint tree_lookup (parts : list string) (t : tree) : option tree :=
  match parts with
  | [] => Some t
  | part :: rest =>
      match t with
      | TNone => None
      | TDict items =>
          match tree_get part items with
          | Some child => tree_lookup rest child
          | None => None
          end
      end
  end.

Definition leaf_at (parts : list string) (t : tree) : Prop :=
  tree_lookup parts t = Some TNone.

(** The chain of ancestor names joined with slashes, as the specification
    words the path of a module. *)
Definition slash_joined (names : list string) : string := String.concat "/" names.

(** ** A sample project

    [/proj/top.json] describes [cpu] and refers to [./sub/alu.json], which
    refers to [./adder.json] from its own directory; [/proj/broken.json] is
    not JSON; nothing else exists. *)

Definition module_doc (n : string) (rest : dict) : json :=
  JDict ([("name", JStr n); ("filepath", JStr ("rtl/" +:+ n +:+ ".v"));
          ("docpath", JStr ("doc/" +:+ n +:+ ".md"))] ++ rest)%list.

Definition top_json : path := Path true ["proj"; "top.json"].
Definition alu_json : path := Path true ["proj"; "sub"; "alu.json"].
Definition adder_json : path := Path true ["proj"; "sub"; "adder.json"].
Definition broken_json : path := Path true ["proj"; "broken.json"].

Definition adder_doc : json := module_doc "adder" [].
Definition alu_doc : json :=
  module_doc "alu" [("submodules", JDict [("$ref", JStr "./adder.json")])].
Definition top_doc : json :=
  module_doc "cpu" [("submodules", JList [JDict [("$ref", JStr "./sub/alu.json")]])].

Definition sample_fs (p : path) : option file :=
  if decide (p = top_json) then Some (Text top_doc)
  else if decide (p = alu_json) then Some (Text alu_doc)
  else if decide (p = adder_json) then Some (Text adder_doc)
  else if decide (p = broken_json)
       then Some (Malformed "Expecting value: line 1 column 1 (char 0)")
  else None.

Definition sample_enoent (p : path) : string :=
  "[Errno 2] No such file or directory: '" +:+ path_str p +:+ "'".

Definition sample_rank (p : path) : nat :=
  if decide (p = top_json) then 2
  else if decide (p = alu_json) then 1
  else 0.

(** The sample project with every reference replaced. *)
Definition top_resolved : json :=
  module_doc "cpu"
    [("submodules", JList [module_doc "alu" [("submodules", adder_doc)]])].

(** [repr] for the samples, whose names are all strings. *)
Definition sample_repr (v : json) : string := "".

(** A module with an empty name above [alu], above [adder] with one test. *)
Definition unnamed_root : json :=
  module_doc ""
    [("submodules",
      JList [module_doc "alu"
               [("submodules",
                 module_doc "adder"
                   [("test", JDict [("test_case",
                                     JList [JDict [("run_cmd", JStr "make sim")]])])])]])].

(** [cpu] with two copies of the same sub-tree. *)
Definition alu_tree : json := module_doc "alu" [("submodules", adder_doc)].

(** A mapping with a name and sub-modules that is not a module. *)
Definition wrapper : json :=
  JDict [("name", JStr "wrapper"); ("submodules", JList [alu_tree])].

(** Two test cases, the second without a name. *)
Definition two_cases : dict :=
  [("testbench_path", JStr "tb/tb.sv");
   ("test_case", JList [JDict [("name", JStr "smoke"); ("run_cmd", JStr "make smoke")];
                        JDict [("run_cmd", JStr "make full")]])].

(** Two modules named [alu], under [cpu] and under [gpu], each with tests. *)
Definition alu_under_cpu : dict :=
  [("name", JStr "alu"); ("test", JDict two_cases)].
Definition alu_under_gpu : dict :=
  [("name", JStr "alu");
   ("test", JDict [("test_case", JList [JDict [("name", JStr "gpu_only")]])])].

(** [soc] with the first [alu], then [gpu] with the second one below it. *)
Definition two_alus : json :=
  module_doc "soc"
    [("submodules",
      JList [JDict alu_under_cpu;
             module_doc "gpu" [("submodules", JDict alu_under_gpu)]])].

(** [cpu] with two test cases, above [fpu], above the second [alu]. *)
Definition cpu_fpu_alu : json :=
  module_doc "cpu"
    [("test", JDict two_cases);
     ("submodules", JList [module_doc "fpu" [("submodules", JDict alu_under_gpu)]])].

(** A mapping that has ['$ref'] and another key. *)
Definition ref_with_sibling : dict :=
  [("$ref", JStr "./adder.json"); ("name", JStr "fast_adder")].

(** A mapping whose ['$ref'] is not relative, around a relative reference
    (to a file that exists, to one that does not). *)
Definition opaque_around (target : string) : json :=
  JDict [("$ref", JStr "schema.json#/definitions/module");
         ("submodules", JDict [("$ref", JStr target)])].

(** The sample project with such a mapping as its root document. *)
Definition opaque_fs (p : path) : option file :=
  if decide (p = top_json) then Some (Text (opaque_around "./sub/alu.json"))
  else if decide (p = alu_json) then Some (Text adder_doc)
  else None.

(** A file that refers to itself, and nothing else. *)
Definition loop_fs (p : path) : option file :=
  if decide (p = top_json) then Some (Text (JDict [("$ref", JStr "./top.json")]))
  else None.

(** The sample project without [alu.json] and [broken.json]. *)
Definition sparse_fs (p : path) : option file :=
  if decide (p = top_json) then Some (Text top_doc)
  else if decide (p = adder_json) then Some (Text adder_doc)
  else None.

(** One file, which holds a mapping that is not a module; one file, which
    holds the sample project with every reference replaced. *)
Definition wrapper_fs (p : path) : option file :=
  if decide (p = top_json) then Some (Text wrapper) else None.

Definition resolved_fs (p : path) : option file :=
  if decide (p = top_json) then Some (Text top_resolved) else None.



(** * Properties *)

(** ** Values and comprehensions *)

(** Induction over values, with the hypothesis on every element. *)
Lemma json_ind' (P : json → Prop) :
  P JNull → (∀ b, P (JBool b)) → (∀ n, P (JNum n)) → (∀ s, P (JStr s)) →
  (∀ l, Forall P l → P (JList l)) →
  (∀ d, Forall (λ kv, P kv.2) d → P (JDict d)) →
  ∀ v, P v.
Proof.
  intros Hnull Hbool Hnum Hstr Hlist Hdict.
  fix IH 1. intros [ | b | n | s | l | d].
  - exact Hnull.
  - apply Hbool.
  - apply Hnum.
  - apply Hstr.
  - apply Hlist. induction l as [|x l IHl]; constructor; [apply IH | exact IHl].
  - apply Hdict. induction d as [|[k x] d IHd]; constructor; [apply IH | exact IHd].
Qed.

Lemma traverse_ok {A B} (f : A → result B) l ys :
  traverse f l = Ok ys → Forall2 (λ x y, f x = Ok y) l ys.
Proof.
  revert ys. induction l as [|x l IH]; intros ys; simpl.
  - intros [= <-]. constructor.
  - destruct (f x) as [y|e] eqn:Hx; simpl; [|done].
    destruct (traverse f l) as [zs|e] eqn:Hl; simpl; [|done].
    intros [= <-]. constructor; [done | by apply IH].
Qed.

Lemma traverse_raise {A B} (f : A → result B) l e :
  traverse f l = Raise e → ∃ x, x ∈ l ∧ f x = Raise e.
Proof.
  induction l as [|x l IH]; simpl; [done|].
  destruct (f x) as [y|e'] eqn:Hx; simpl.
  - destruct (traverse f l) as [zs|e'] eqn:Hl; simpl; [done|].
    intros [= ->]. destruct IH as (x' & Hin & Hx'); [done|].
    exists x'. split; [by right | done].
  - intros [= ->]. exists x. split; [by left | done].
Qed.

Lemma traverse_raises_at {A B} (f : A → result B) l x :
  x ∈ l → (∀ y, f x ≠ Ok y) → ∀ ys, traverse f l ≠ Ok ys.
Proof.
  intros Hin Hx ys Hok. apply traverse_ok in Hok.
  apply list_elem_of_lookup in Hin as [i Hi].
  destruct (Forall2_lookup_l _ _ _ _ _ Hok Hi) as (y & _ & Hy).
  by apply (Hx y).
Qed.

(** ** The resolver, case by case *)

Section ResolverFacts.
Variable fs : path → option file.
Variable enoent : path → string.

Local Abbreviation resolve_refs := (resolve_refs fs enoent).
Local Abbreviation resolve_mapping := (resolve_mapping fs enoent).
Local Abbreviation resolve_reference := (resolve_reference fs enoent).

Lemma resolve_refs_list limit l base :
  resolve_refs limit (JList l) base
  = JList <$> traverse (λ item, resolve_refs limit item base) l.
Proof. by destruct limit. Qed.

Lemma resolve_refs_dict limit d base :
  resolve_refs limit (JDict d) base
  = match dict_get "$ref" d with
    | Some ref_path => resolve_reference limit d ref_path base
    | None => resolve_mapping limit d base
    end.
Proof. by destruct limit. Qed.

Lemma resolve_refs_scalar limit v base :
  match v with JList _ | JDict _ => False | _ => True end →
  resolve_refs limit v base = Ok v.
Proof. by destruct limit, v. Qed.

(** The items of a resolved mapping keep their keys. *)
Lemma traverse_items_keys (R : json → result json) (d ys : dict) k :
  traverse (λ kv, v ← R kv.2; Ok (kv.1, v)) d = Ok ys →
  dict_get k ys = None ↔ dict_get k d = None.
Proof.
  revert ys. induction d as [|[k' x] d IH]; intros ys; simpl.
  - by intros [= <-].
  - destruct (R x) as [y|e]; simpl; [|done].
    destruct (traverse _ d) as [zs|e]; simpl; [|done].
    intros [= <-]. simpl. case_decide; [done | by apply IH].
Qed.

Lemma traverse_items_ok (R : json → result json) (d ys : dict) :
  traverse (λ kv, v ← R kv.2; Ok (kv.1, v)) d = Ok ys →
  Forall2 (λ kv kv', R kv.2 = Ok kv'.2) d ys.
Proof.
  intros Htr. apply traverse_ok in Htr.
  eapply Forall2_impl; [exact Htr|].
  intros [k x] [k' y]; simpl. by destruct (R x); intros [= <- <-].
Qed.

(** A returned document exposes no relative reference. *)
Lemma resolve_refs_exposes_none limit :
  ∀ obj base v,
    resolve_refs limit obj base = Ok v → exposes_relative_ref v = false.
Proof.
  induction limit as [limit IHlimit] using lt_wf_ind.
  intros obj. induction obj as [ | b | n | s | l IHl | d IHd ] using json_ind';
    intros base v.
  1-4: rewrite resolve_refs_scalar by done; by intros [= <-].
  - rewrite resolve_refs_list.
    destruct (traverse _ l) as [ys|e] eqn:Htr; simpl; [|done].
    intros [= <-]. apply traverse_ok in Htr. simpl.
    apply not_true_is_false. rewrite existsb_exists.
    intros (y & Hy & Hexp).
    apply list_elem_of_In, list_elem_of_lookup in Hy as [i Hi].
    destruct (Forall2_lookup_r _ _ _ _ _ Htr Hi) as (x & Hx & Hres).
    rewrite Forall_lookup in IHl.
    by rewrite (IHl _ _ Hx _ _ Hres) in Hexp.
  - rewrite resolve_refs_dict. destruct (dict_get "$ref" d) as [r|] eqn:Href.
    + unfold resolve_reference. destruct r as [ | | | s | | ]; try done.
      destruct (is_relative s) eqn:Hrel.
      * destruct (negb _); [done|].
        destruct (open_json fs enoent _) as [ref_data|e]; simpl; [|done].
        destruct limit as [|limit']; [done|]. apply IHlimit. lia.
      * intros [= <-]. simpl. by rewrite Href, Hrel.
    + unfold resolve_mapping.
      destruct (traverse _ d) as [ys|e] eqn:Htr; simpl; [|done].
      intros [= <-]. simpl.
      assert (dict_get "$ref" ys = None) as ->
        by by apply (traverse_items_keys (λ x, resolve_refs limit x base) d ys).
      apply (traverse_items_ok (λ x, resolve_refs limit x base)) in Htr.
      apply not_true_is_false. rewrite existsb_exists.
      intros (kv' & Hy & Hexp).
      apply list_elem_of_In, list_elem_of_lookup in Hy as [i Hi].
      destruct (Forall2_lookup_r _ _ _ _ _ Htr Hi) as (kv & Hx & Hres).
      rewrite Forall_lookup in IHd.
      by rewrite (IHd _ _ Hx _ _ Hres) in Hexp.
Qed.

End ResolverFacts.

(** ** Acyclic reference graphs *)

Section Acyclic.
Variable fs : path → option file.
Variable enoent : path → string.
Variable rank : path → nat.
Hypothesis Hrank : ranked fs rank.

Local Abbreviation resolve_refs := (resolve_refs fs enoent).

(** With a budget above the rank of everything a document refers to, the
    resolver does not run out of it. *)
Lemma resolve_refs_within_budget limit :
  ∀ obj base,
    (∀ r, r ∈ refs_of obj → rank (joinpath base r) < limit) →
    resolve_refs limit obj base ≠ Raise RecursionError.
Proof.
  induction limit as [limit IHlimit] using lt_wf_ind.
  intros obj. induction obj as [ | b | n | s | l IHl | d IHd ] using json_ind';
    intros base Hrefs.
  1-4: by rewrite resolve_refs_scalar.
  - rewrite resolve_refs_list.
    destruct (traverse _ l) as [ys|e] eqn:Htr; simpl; [done|].
    intros [= ->]. apply traverse_raise in Htr as (x & Hx & Hres).
    rewrite Forall_forall in IHl. apply (IHl x Hx base); [|done].
    intros r Hr. apply Hrefs. simpl.
    apply list_elem_of_In, in_flat_map. exists x.
    by rewrite <- !list_elem_of_In.
  - rewrite resolve_refs_dict. destruct (dict_get "$ref" d) as [r|] eqn:Href.
    + unfold resolve_reference. destruct r as [ | | | s | | ]; try done.
      destruct (is_relative s) eqn:Hrel; [|done].
      destruct (negb _); [done|].
      unfold open_json.
      destruct (fs (joinpath base s)) as [[ref_data|msg]|] eqn:Hfs; simpl; try done.
      assert (rank (joinpath base s) < limit) as Hlt.
      { apply Hrefs. simpl. rewrite Href, Hrel. by left. }
      destruct limit as [|limit']; [lia|].
      apply IHlimit; [lia|].
      intros r Hr. pose proof (Hrank _ _ _ Hfs Hr). lia.
    + unfold resolve_mapping.
      destruct (traverse _ d) as [ys|e] eqn:Htr; simpl; [done|].
      intros [= ->]. apply traverse_raise in Htr as ([k x] & Hx & Hres).
      simpl in Hres.
      destruct (resolve_refs limit x base) as [y|e] eqn:Hxres; simplify_eq/=.
      rewrite Forall_forall in IHd. apply (IHd _ Hx base); [|done].
      intros r Hr. apply Hrefs. simpl. rewrite Href.
      apply list_elem_of_In, in_flat_map. exists (k, x).
      by rewrite <- !list_elem_of_In.
Qed.

End Acyclic.

(** ** Missing targets *)

(** A document that exposes a reference to a missing file is not resolved. *)
Lemma exposed_missing_ref_not_ok fs enoent limit :
  ∀ v base,
    exposes_missing_ref fs base v = true →
    ∀ doc, resolve_refs fs enoent limit v base ≠ Ok doc.
Proof.
  intros v. induction v as [ | b | n | s | l IHl | d IHd ] using json_ind';
    intros base Hexp doc; try done.
  - rewrite resolve_refs_list. simpl in Hexp.
    apply existsb_exists in Hexp as (x & Hx & Hexp).
    apply list_elem_of_In in Hx. rewrite Forall_forall in IHl.
    destruct (traverse _ l) as [ys|e] eqn:Htr; simpl; [|done].
    exfalso. exact (traverse_raises_at
      (λ item, resolve_refs fs enoent limit item base) l x Hx
      (IHl x Hx base Hexp) ys Htr).
  - rewrite resolve_refs_dict. simpl in Hexp.
    destruct (dict_get "$ref" d) as [r|] eqn:Href.
    + destruct r as [ | | | s | | ]; try done. unfold resolve_reference.
      apply andb_true_iff in Hexp as [-> ->]. done.
    + unfold resolve_mapping.
      apply existsb_exists in Hexp as ([k x] & Hx & Hexp).
      apply list_elem_of_In in Hx. rewrite Forall_forall in IHd.
      destruct (traverse _ d) as [ys|e] eqn:Htr; simpl; [|done].
      exfalso. refine (traverse_raises_at
        (λ kv, v ← resolve_refs fs enoent limit kv.2 base; Ok (kv.1, v))
        d (k, x) Hx _ ys Htr).
      intros y. simpl.
      destruct (resolve_refs fs enoent limit x base) as [y'|e] eqn:Hres; [|done].
      by destruct (IHd _ Hx base Hexp y').
Qed.

(** ** The sample project *)

Lemma sample_ranked : ranked sample_fs sample_rank.
Proof.
  intros p doc r Hfs Hr. unfold sample_fs in Hfs.
  repeat case_decide; simplify_eq; vm_compute in Hr.
  - apply list_elem_of_singleton in Hr as ->. vm_compute. lia.
  - apply list_elem_of_singleton in Hr as ->. vm_compute. lia.
  - inversion Hr.
Qed.

Lemma sample_load :
  load_json_with_refs sample_fs sample_enoent 2 top_json = Ok top_resolved.
Proof. vm_compute. reflexivity. Qed.

(** ** The walk over the sub-modules *)

Section Walk.
Context {A : Type} (I : list A → gset key → gset key → Prop).
Hypothesis I_nil : ∀ v, I [] v v.
Hypothesis I_app : ∀ o1 o2 v v1 v2, I o1 v v1 → I o2 v1 v2 → I (o1 ++ o2) v v2.

(** What holds of every visit holds of the loop. *)
Lemma for_each_dict_inv (f : json → gset key → result (list A * gset key)) l :
  (∀ c v out v', JDict c ∈ l → f (JDict c) v = Ok (out, v') → I out v v') →
  ∀ v out v', for_each_dict f l v = Ok (out, v') → I out v v'.
Proof.
  induction l as [|x l IH]; intros Hf v out v'; simpl.
  - intros [= <- <-]. apply I_nil.
  - assert (∀ w o w',
      match x return result (list A * gset key) with
      | JDict _ => f x w
      | _ => Ok ([], w)
      end = Ok (o, w') → I o w w') as Hx.
    { intros w o w'. destruct x; try (intros [= <- <-]; apply I_nil).
      apply Hf. by left. }
    destruct (match x return result (list A * gset key) with
              | JDict _ => f x v | _ => Ok ([], v) end)
      as [[o1 v1]|e] eqn:H1; simpl; [|done].
    destruct (for_each_dict f l v1) as [[o2 v2]|e] eqn:H2; simpl; [|done].
    intros [= <- <-]. eapply I_app; [by apply Hx|].
    eapply IH; [|done]. intros c w o w' Hc. apply Hf. by right.
Qed.

Lemma walk_submodules_inv (f : json → gset key → result (list A * gset key))
    submodules :
  (∀ c v out v', submodule_of submodules c →
     f (JDict c) v = Ok (out, v') → I out v v') →
  ∀ v out v', walk_submodules f submodules v = Ok (out, v') → I out v v'.
Proof.
  intros Hf v out v'. unfold walk_submodules.
  destruct submodules as [sub|]; [|intros [= <- <-]; apply I_nil].
  destruct (truthy sub); [|intros [= <- <-]; apply I_nil].
  destruct sub as [ | | | | l | c ]; try (intros [= <- <-]; apply I_nil).
  - apply for_each_dict_inv. intros c w o w' Hc. apply Hf. right. by exists l.
  - apply Hf. by left.
Qed.

End Walk.

(** A recursive call under the budget: what holds of the calls with a
    smaller budget holds of it. *)
Lemma recursive_call_inv {A} (g : nat → json → gset key → result (list A * gset key))
    (P : json → gset key → list A → gset key → Prop) limit :
  (∀ limit', limit' < limit → ∀ x v out v', g limit' x v = Ok (out, v') → P x v out v') →
  ∀ x v out v',
    match limit with
    | O => Raise RecursionError
    | S limit' => g limit' x v
    end = Ok (out, v') → P x v out v'.
Proof. intros IH x v out v'. destruct limit; [done|]. apply IH. lia. Qed.

Lemma extract_modules_eq repr limit data parent_name visited :
  extract_modules repr limit data parent_name visited
  = match data with
    | JDict d =>
        if has_required d then
          let full_name := full_path (make_module_info repr d parent_name) in
          k ← hash_key full_name;
          if decide (k ∈ visited) then Ok ([], visited)
          else
            '(subs, visited) ←
              walk_submodules
                (λ submodule visited,
                   match limit with
                   | O => Raise RecursionError
                   | S limit' => extract_modules repr limit' submodule full_name visited
                   end)
                (dict_get "submodules" d) ({[k]} ∪ visited);
            Ok (make_module_info repr d parent_name :: subs, visited)
        else Ok ([], visited)
    | _ => Ok ([], visited)
    end.
Proof. by destruct limit. Qed.

Lemma extract_testcases_eq repr limit data module_name visited :
  extract_testcases repr limit data module_name visited
  = match data with
    | JDict d =>
        match dict_get "name" d with
        | Some current_module =>
            k ← hash_key current_module;
            if decide (k ∈ visited) then Ok ([], visited)
            else
              '(subs, visited) ←
                walk_submodules
                  (λ submodule visited,
                     match limit with
                     | O => Raise RecursionError
                     | S limit' =>
                         extract_testcases repr limit' submodule
                           (join_name repr module_name current_module) visited
                     end)
                  (dict_get "submodules" d) ({[k]} ∪ visited);
              Ok (own_testcases current_module module_name d ++ subs, visited)
        | None => Ok ([], visited)
        end
    | _ => Ok ([], visited)
    end.
Proof. by destruct limit. Qed.

(** ** [extract_modules]: the paths of the records *)





(** ** Where the records come from *)

Lemma extract_modules_sound repr limit :
  ∀ data p v ms v',
    extract_modules repr limit data p v = Ok (ms, v') →
    Forall (λ r, ∃ chain d q,
              descends has_required (modules_step repr) data p chain d q ∧
              r = make_module_info repr d q) ms.
Proof.
  induction limit as [limit IH] using lt_wf_ind.
  intros data p v ms v'. rewrite extract_modules_eq.
  destruct data as [ | | | | | d ]; try (intros [= <- <-]; constructor).
  destruct (has_required d) eqn:Hreq; [|intros [= <- <-]; constructor].
  cbv zeta. destruct (hash_key _) as [k|e]; simpl; [|done].
  case_decide; [intros [= <- <-]; constructor|].
  destruct (walk_submodules _ _ _) as [[subs v1]|e] eqn:Hw; simpl; [|done].
  intros [= <- <-]. constructor.
  { exists [], d, p. split; [by constructor | done]. }
  revert Hw. apply (walk_submodules_inv (λ o _ _, Forall _ o)).
  - constructor.
  - intros o1 o2 _ _ _ H1 H2. apply Forall_app. by split.
  - intros c w o w' Hc Hvisit.
    eapply (recursive_call_inv
      (λ l x, extract_modules repr l x _)
      (λ x _ o _, Forall (λ r, ∃ chain d' q,
         descends has_required (modules_step repr) x (modules_step repr d p) chain d' q ∧
         r = make_module_info repr d' q) o)) in Hvisit.
    + eapply Forall_impl; [exact Hvisit|].
      intros r (chain & d' & q & Hdesc & ->).
      exists (dict_get_default "name" JNull d :: chain), d', q.
      split; [|done]. by eapply descends_sub.
    + intros limit' Hlt x w1 o1 w1'. by apply IH.
Qed.

Lemma enumerate_cases_fields n q cfg idx l r :
  r ∈ enumerate_cases n q cfg idx l → module r = n ∧ module_path r = q.
Proof.
  revert idx. induction l as [|tc l IH]; intros idx; simpl; [by intros ?%elem_of_nil|].
  intros [Hr|Hr]%elem_of_app; [|by eapply IH].
  destruct tc; try by apply elem_of_nil in Hr.
  by apply list_elem_of_singleton in Hr as ->.
Qed.

Lemma own_testcases_fields n q d r :
  r ∈ own_testcases n q d → module r = n ∧ module_path r = q.
Proof.
  unfold own_testcases.
  destruct (dict_get "test" d) as [[ | | | | | cfg]|]; try by intros ?%elem_of_nil.
  destruct (truthy _); [|by intros ?%elem_of_nil].
  destruct (dict_get_default _ _ _); try by intros ?%elem_of_nil.
  apply enumerate_cases_fields.
Qed.

Lemma extract_testcases_sound repr limit :
  ∀ data p v tcs v',
    extract_testcases repr limit data p v = Ok (tcs, v') →
    Forall (λ r, ∃ chain d q,
              descends has_name (testcases_step repr) data p chain d q ∧
              r ∈ own_testcases (dict_get_default "name" JNull d) q d) tcs.
Proof.
  induction limit as [limit IH] using lt_wf_ind.
  intros data p v tcs v'. rewrite extract_testcases_eq.
  destruct data as [ | | | | | d ]; try (intros [= <- <-]; constructor).
  destruct (dict_get "name" d) as [n|] eqn:Hn; [|intros [= <- <-]; constructor].
  assert (has_name d = true) as Hq.
  { unfold has_name, dict_has. rewrite Hn. by apply bool_decide_eq_true. }
  assert (dict_get_default "name" JNull d = n) as Hname
    by (unfold dict_get_default; by rewrite Hn).
  destruct (hash_key _) as [k|e]; simpl; [|done].
  case_decide; [intros [= <- <-]; constructor|].
  destruct (walk_submodules _ _ _) as [[subs v1]|e] eqn:Hw; simpl; [|done].
  intros [= <- <-]. apply Forall_app. split.
  { apply Forall_forall. intros r Hr. exists [], d, p.
    split; [by constructor | by rewrite Hname]. }
  revert Hw. apply (walk_submodules_inv (λ o _ _, Forall _ o)).
  - constructor.
  - intros o1 o2 _ _ _ H1 H2. apply Forall_app. by split.
  - intros c w o w' Hc Hvisit.
    eapply (recursive_call_inv
      (λ l x, extract_testcases repr l x _)
      (λ x _ o _, Forall (λ r, ∃ chain d' q,
         descends has_name (testcases_step repr) x (testcases_step repr d p) chain d' q ∧
         r ∈ own_testcases (dict_get_default "name" JNull d') q d') o)) in Hvisit.
    + eapply Forall_impl; [exact Hvisit|].
      intros r (chain & d' & q & Hdesc & Hr).
      exists (dict_get_default "name" JNull d :: chain), d', q.
      split; [|done]. by eapply descends_sub.
    + intros limit' Hlt x w1 o1 w1'. unfold testcases_step. rewrite Hname.
      by apply IH.
Qed.

(** ** Paths along a chain of ancestors *)

Lemma descends_path repr qualifies step data p chain d q :
  (∀ d p, step d p = join_name repr p (dict_get_default "name" JNull d)) →
  descends qualifies step data p chain d q →
  q = foldl (join_name repr) p chain.
Proof.
  intros Hstep. induction 1 as [|d p c chain m q _ _ _ IH]; [done|].
  simpl. by rewrite <- Hstep.
Qed.

Lemma string_app_assoc (s1 s2 s3 : string) :
  (s1 +:+ s2) +:+ s3 = s1 +:+ s2 +:+ s3.
Proof.
  induction s1 as [|c s1 IH]; [done|].
  change (String c ((s1 +:+ s2) +:+ s3) = String c (s1 +:+ s2 +:+ s3)).
  by f_equal.
Qed.

Lemma string_app_nonempty (s1 s2 : string) : s1 ≠ "" → s1 +:+ s2 ≠ "".
Proof. by destruct s1. Qed.

Lemma join_name_strings repr (s n : string) :
  join_name repr (JStr s) (JStr n)
  = JStr (if decide (s = "") then n else s +:+ "/" +:+ n).
Proof.
  unfold join_name. simpl. case_bool_decide; by case_decide.
Qed.

Lemma foldl_join_from repr (s : string) (names : list string) :
  s ≠ "" →
  foldl (join_name repr) (JStr s) (JStr <$> names)
  = JStr (String.concat "/" (s :: names)).
Proof.
  revert s. induction names as [|n names IH]; intros s Hs; [done|].
  cbn [fmap list_fmap foldl]. rewrite join_name_strings.
  case_decide; [done|].
  rewrite IH by by apply string_app_nonempty.
  f_equal. simpl. destruct names; [done|]. by rewrite !string_app_assoc.
Qed.

(** Along ancestors with non-empty names the accumulated path is the chain
    of names joined with slashes. *)
Lemma foldl_join_names repr (names : list string) :
  Forall (λ n, n ≠ "") names →
  foldl (join_name repr) (JStr "") (JStr <$> names) = JStr (slash_joined names).
Proof.
  destruct names as [|n names]; [done|].
  intros [Hn _]%Forall_cons. cbn [fmap list_fmap foldl].
  rewrite join_name_strings. case_decide; [|done].
  by apply foldl_join_from.
Qed.

(** ** [extract_testcases]: the visited names *)




Lemma enumerate_cases_lookup n q cfg idx l i tc :
  l !! i = Some (JDict tc) →
  make_testcase_info n q cfg (idx + i) tc ∈ enumerate_cases n q cfg idx l.
Proof.
  revert idx i. induction l as [|x l IH]; intros idx [|i]; simpl; try done.
  - intros [= ->]. rewrite Nat.add_0_r. apply elem_of_app. left. by left.
  - intros Hi. apply elem_of_app. right.
    replace (idx + S i) with (S idx + i) by lia. by apply IH.
Qed.

(** ** [extract_testcases]: one module for each name *)

Lemma records_of_none k out :
  (∀ r, r ∈ out → hash_key (module r) ≠ Ok k) → records_of k out = [].
Proof.
  intros Hnone. unfold records_of. induction out as [|r out IH]; [done|].
  rewrite filter_cons. rewrite decide_False by (apply Hnone; by left).
  apply IH. intros r' Hr'. apply Hnone. by right.
Qed.

Lemma records_of_all k out :
  (∀ r, r ∈ out → hash_key (module r) = Ok k) → records_of k out = out.
Proof.
  intros Hall. unfold records_of. induction out as [|r out IH]; [done|].
  rewrite filter_cons. rewrite decide_True by (apply Hall; by left).
  f_equal. apply IH. intros r' Hr'. apply Hall. by right.
Qed.

Lemma one_source_nil repr data p v : one_source repr data p [] v v.
Proof. split_and!; [done | by intros r ?%elem_of_nil | by left]. Qed.

Lemma one_source_app repr data p o1 o2 v v1 v2 :
  one_source repr data p o1 v v1 → one_source repr data p o2 v1 v2 →
  one_source repr data p (o1 ++ o2) v v2.
Proof.
  intros (Hsub1 & Hnew1 & Hsrc1) (Hsub2 & Hnew2 & Hsrc2). split_and!.
  - set_solver.
  - intros r [Hr|Hr]%elem_of_app.
    + destruct (Hnew1 r Hr) as (k & Hk & Hv & Hv1). exists k. set_solver.
    + destruct (Hnew2 r Hr) as (k & Hk & Hv1 & Hv2). exists k. set_solver.
  - intros k. unfold records_of. rewrite filter_app. fold (records_of k o1) (records_of k o2).
    destruct (records_of k o1) as [|r rs] eqn:Ho1.
    + apply Hsrc2.
    + assert (records_of k o2 = []) as ->.
      { apply records_of_none. intros r' Hr' Hk'.
        destruct (Hnew2 r' Hr') as (k' & Hk2 & Hv1 & _).
        assert (k' = k) as -> by congruence.
        assert (r ∈ records_of k o1) as Hr by (rewrite Ho1; by left).
        apply list_elem_of_filter in Hr as [Hk Hr].
        destruct (Hnew1 r Hr) as (k1 & Hk1 & _ & Hin).
        assert (k1 = k) as -> by congruence. done. }
      rewrite app_nil_r, <- Ho1. apply Hsrc1.
Qed.

Lemma extract_testcases_one_source repr limit :
  ∀ data p v tcs v',
    extract_testcases repr limit data p v = Ok (tcs, v') →
    one_source repr data p tcs v v'.
Proof.
  induction limit as [limit IH] using lt_wf_ind.
  intros data p v tcs v'. rewrite extract_testcases_eq.
  destruct data as [ | | | | | d ]; try (intros [= <- <-]; apply one_source_nil).
  destruct (dict_get "name" d) as [n|] eqn:Hn;
    [|intros [= <- <-]; apply one_source_nil].
  assert (has_name d = true) as Hq.
  { unfold has_name, dict_has. rewrite Hn. by apply bool_decide_eq_true. }
  assert (dict_get_default "name" JNull d = n) as Hname
    by (unfold dict_get_default; by rewrite Hn).
  destruct (hash_key n) as [k0|e] eqn:Hk0; simpl; [|done].
  case_decide as Hin; [intros [= <- <-]; apply one_source_nil|].
  destruct (walk_submodules _ _ _) as [[subs v1]|e] eqn:Hw; simpl; [|done].
  intros [= <- <-].
  apply (walk_submodules_inv (one_source repr (JDict d) p)) in Hw.
  - destruct Hw as (Hsub & Hnew & Hsrc).
    assert (∀ r, r ∈ own_testcases n p d → hash_key (module r) = Ok k0) as Hown.
    { intros r [-> _]%own_testcases_fields. done. }
    split_and!.
    + set_solver.
    + intros r [Hr|Hr]%elem_of_app.
      * exists k0. split; [by apply Hown|]. set_solver.
      * destruct (Hnew r Hr) as (k & Hk & Hv & Hv1). exists k. set_solver.
    + intros k. unfold records_of. rewrite filter_app.
      fold (records_of k (own_testcases n p d)) (records_of k subs).
      destruct (decide (k = k0)) as [->|Hne].
      * right. exists [], d, p. rewrite Hname. split_and!; [by constructor | done |].
        rewrite records_of_all by done.
        rewrite records_of_none; [by rewrite app_nil_r|].
        intros r Hr Hk. destruct (Hnew r Hr) as (k & Hk' & Hv & _).
        assert (k = k0) as -> by congruence. set_solver.
      * rewrite (records_of_none k (own_testcases n p d)).
        { apply Hsrc. }
        intros r Hr Hk. specialize (Hown r Hr). congruence.
  - apply one_source_nil.
  - apply one_source_app.
  - intros c w o w' Hc Hvisit.
    eapply (recursive_call_inv
      (λ l x, extract_testcases repr l x _)
      (λ x w o w', one_source repr x (testcases_step repr d p) o w w')) in Hvisit.
    + destruct Hvisit as (Hsub & Hnew & Hsrc). split_and!; [done | done |].
      intros k. destruct (Hsrc k) as [Hnone|(chain & d' & q & Hdesc & Hk & Hrec)];
        [by left|].
      right. exists (dict_get_default "name" JNull d :: chain), d', q.
      split_and!; [|done|done]. by eapply descends_sub.
    + intros limit' Hlt x w1 o1 w1'. unfold testcases_step. rewrite Hname.
      by apply IH.
Qed.

(** ** The extractors within their budget *)

Lemma depth_dict_get k (d : dict) x :
  dict_get k d = Some x → depth x < depth (JDict d).
Proof.
  simpl. induction d as [|[k' y] d IH]; simpl; [done|].
  case_decide; [intros [= ->]; lia|]. intros Hx. specialize (IH Hx). lia.
Qed.

Lemma depth_list_elem (l : list json) x : x ∈ l → depth x < depth (JList l).
Proof.
  simpl. induction 1 as [x l|x y l _ IH]; simpl; lia.
Qed.

Lemma submodule_of_depth (d c : dict) :
  submodule_of (dict_get "submodules" d) c → depth (JDict c) < depth (JDict d).
Proof.
  intros [Hc|(l & Hl & Hc)].
  - by apply depth_dict_get in Hc.
  - apply depth_dict_get in Hl. apply depth_list_elem in Hc. lia.
Qed.

Lemma for_each_dict_raise {A} (f : json → gset key → result (list A * gset key)) l :
  ∀ v e, for_each_dict f l v = Raise e →
         ∃ c w, JDict c ∈ l ∧ f (JDict c) w = Raise e.
Proof.
  induction l as [|x l IH]; intros v e; simpl; [done|].
  destruct (match x return result (list A * gset key) with
            | JDict _ => f x v | _ => Ok ([], v) end)
    as [[o1 v1]|e1] eqn:H1; simpl.
  - destruct (for_each_dict f l v1) as [[o2 v2]|e2] eqn:H2; simpl; [done|].
    intros [= ->]. destruct (IH _ _ H2) as (c & w & Hc & Hf).
    exists c, w. split; [by right | done].
  - intros [= ->]. destruct x as [ | | | | | c]; try done.
    exists c, v. split; [by left | done].
Qed.

Lemma walk_submodules_raise {A} (f : json → gset key → result (list A * gset key))
    submodules v e :
  walk_submodules f submodules v = Raise e →
  ∃ c w, submodule_of submodules c ∧ f (JDict c) w = Raise e.
Proof.
  unfold walk_submodules. destruct submodules as [sub|]; [|done].
  destruct (truthy sub); [|done]. destruct sub as [ | | | | l | c ]; try done.
  - intros (c & w & Hc & Hf)%for_each_dict_raise.
    exists c, w. split; [|done]. right. by exists l.
  - intros Hf. exists c, v. split; [by left | done].
Qed.

Lemma hash_key_raise v e : hash_key v = Raise e → ∃ msg, e = TypeError msg.
Proof. destruct v; simpl; try done; intros [= <-]; by eexists. Qed.

(** With a budget of the depth of the document, [extract_modules] returns,
    unless a name cannot be hashed. *)
Lemma extract_modules_within_budget repr limit :
  ∀ data p v e,
    (depth data ≤ S limit)%nat →
    extract_modules repr limit data p v = Raise e → ∃ msg, e = TypeError msg.
Proof.
  induction limit as [limit IH] using lt_wf_ind.
  intros data p v e Hdepth. rewrite extract_modules_eq.
  destruct data as [ | | | | | d ]; try done.
  destruct (has_required d); [|done].
  cbv zeta. destruct (hash_key _) as [k|e'] eqn:Hk; simpl;
    [|intros [= <-]; by eapply hash_key_raise].
  case_decide; [done|].
  destruct (walk_submodules _ _ _) as [[subs v1]|e'] eqn:Hw; simpl; [done|].
  intros [= <-]. apply walk_submodules_raise in Hw as (c & w & Hc & Hf).
  apply submodule_of_depth in Hc.
  destruct limit as [|limit'].
  - simpl in Hc, Hdepth. lia.
  - eapply (IH limit'); [lia | | exact Hf]. lia.
Qed.

(** The same for [extract_testcases]. *)
Lemma extract_testcases_within_budget repr limit :
  ∀ data p v e,
    (depth data ≤ S limit)%nat →
    extract_testcases repr limit data p v = Raise e → ∃ msg, e = TypeError msg.
Proof.
  induction limit as [limit IH] using lt_wf_ind.
  intros data p v e Hdepth. rewrite extract_testcases_eq.
  destruct data as [ | | | | | d ]; try done.
  destruct (dict_get "name" d) as [n|]; [|done].
  destruct (hash_key _) as [k|e'] eqn:Hk; simpl;
    [|intros [= <-]; by eapply hash_key_raise].
  case_decide; [done|].
  destruct (walk_submodules _ _ _) as [[subs v1]|e'] eqn:Hw; simpl; [done|].
  intros [= <-]. apply walk_submodules_raise in Hw as (c & w & Hc & Hf).
  apply submodule_of_depth in Hc.
  destruct limit as [|limit'].
  - simpl in Hc, Hdepth. lia.
  - eapply (IH limit'); [lia | | exact Hf]. lia.
Qed.

(** * The claims *)

(** ** Reference resolver *)

(** C4, as amended.  For a file system whose reference graph is acyclic,
    resolving the root document terminates: from some recursion budget on
    it never runs out of budget.  A document that it returns exposes no
    relative-reference node: none is left outside the mappings that carry a
    non-relative ['$ref'], which are returned as they are. *)
Theorem resolve_acyclic_exposes_no_relative_ref fs enoent file_path :
  acyclic fs →
  (∃ budget, ∀ limit, (budget ≤ limit)%nat →
     load_json_with_refs fs enoent limit file_path ≠ Raise RecursionError) ∧
  (∀ limit doc, load_json_with_refs fs enoent limit file_path = Ok doc →
     exposes_relative_ref doc = false).
Proof.
  intros [rank Hrank]. unfold load_json_with_refs, open_json. split.
  - exists (rank file_path). intros limit Hlimit.
    destruct (fs file_path) as [[data|msg]|] eqn:Hfs; simpl; try done.
    apply (resolve_refs_within_budget fs enoent rank Hrank).
    intros r Hr. pose proof (Hrank _ _ _ Hfs Hr). lia.
  - intros limit doc. destruct (fs file_path) as [[data|msg]|]; simpl; try done.
    apply resolve_refs_exposes_none.
Qed.

Lemma resolve_acyclic_exposes_no_relative_ref_witness :
  acyclic sample_fs ∧
  load_json_with_refs sample_fs sample_enoent 2 top_json = Ok top_resolved ∧
  (∃ budget, ∀ limit, (budget ≤ limit)%nat →
     load_json_with_refs sample_fs sample_enoent limit top_json
     ≠ Raise RecursionError) ∧
  (∀ limit doc, load_json_with_refs sample_fs sample_enoent limit top_json = Ok doc →
     exposes_relative_ref doc = false).
Proof.
  split; [exists sample_rank; exact sample_ranked|].
  split; [vm_compute; reflexivity|].
  apply (resolve_acyclic_exposes_no_relative_ref sample_fs sample_enoent top_json).
  exists sample_rank. exact sample_ranked.
Defined.

(** C4 as stated fails: a mapping whose ['$ref'] is not relative is returned
    as it is, with the relative reference below it. *)
Lemma resolve_leaves_relative_ref_below_opaque :
  acyclic opaque_fs ∧
  load_json_with_refs opaque_fs sample_enoent 2 top_json
    = Ok (opaque_around "./sub/alu.json") ∧
  has_relative_ref (opaque_around "./sub/alu.json") = true.
Proof.
  split; [|split; vm_compute; reflexivity].
  exists sample_rank. intros p doc r Hfs Hr. unfold opaque_fs in Hfs.
  repeat case_decide; simplify_eq; vm_compute in Hr; inversion Hr.
Qed.

(** C5, as amended.  A mapping is treated as a reference node exactly when
    it has the ['$ref'] key, whatever other keys it has: a relative
    reference is replaced by the resolved target and the other keys are
    ignored, any other string is returned with its mapping unchanged; only
    a mapping without ['$ref'] is resolved as an ordinary mapping. *)
Theorem reference_node_iff_ref_key fs enoent limit d current_base :
  resolve_refs fs enoent limit (JDict d) current_base
  = (if dict_has "$ref" d
     then resolve_reference fs enoent limit d
            (dict_get_default "$ref" JNull d) current_base
     else resolve_mapping fs enoent limit d current_base) ∧
  ∀ s, dict_get "$ref" d = Some (JStr s) →
    resolve_refs fs enoent limit (JDict d) current_base
    = if is_relative s
      then resolve_refs fs enoent limit (JDict [("$ref", JStr s)]) current_base
      else Ok (JDict d).
Proof.
  rewrite !resolve_refs_dict. unfold dict_has, dict_get_default. split.
  - by destruct (dict_get "$ref" d) as [r|].
  - intros s ->. simpl. destruct (is_relative s) eqn:Hrel; [|done].
    rewrite resolve_refs_dict. simpl. by rewrite Hrel.
Qed.

Lemma reference_node_iff_ref_key_witness :
  dict_get "$ref" ref_with_sibling = Some (JStr "./adder.json") ∧
  resolve_refs sample_fs sample_enoent 1 (JDict ref_with_sibling) (parent alu_json)
  = resolve_refs sample_fs sample_enoent 1 (JDict [("$ref", JStr "./adder.json")])
      (parent alu_json).
Proof.
  split; [reflexivity|].
  exact (proj2 (reference_node_iff_ref_key sample_fs sample_enoent 1
                  ref_with_sibling (parent alu_json))
               "./adder.json" eq_refl).
Defined.

(** C5 as stated fails: a mapping with ['$ref'] and another key is replaced
    by the target of the reference, where the ordinary treatment keeps it. *)
Lemma ref_with_sibling_is_reference :
  dict_has "$ref" ref_with_sibling = true ∧
  dict_has "name" ref_with_sibling = true ∧
  resolve_refs sample_fs sample_enoent 1 (JDict ref_with_sibling) (parent alu_json)
    = Ok adder_doc ∧
  resolve_mapping sample_fs sample_enoent 1 ref_with_sibling (parent alu_json)
    = Ok (JDict ref_with_sibling) ∧
  resolve_refs sample_fs sample_enoent 1 (JDict ref_with_sibling) (parent alu_json)
    ≠ resolve_mapping sample_fs sample_enoent 1 ref_with_sibling (parent alu_json).
Proof. split_and!; by vm_compute. Qed.




(** ** Module extractor *)



(** C10.  A value that is not a mapping with all of ['name'], ['filepath']
    and ['docpath'] yields no record, whatever is nested inside it; the
    records of any value come from the modules reached from it through the
    ['submodules'] of modules. *)
Theorem extract_modules_only_from_modules
    repr limit data parent_name visited :
  (is_module data = false →
   extract_modules repr limit data parent_name visited = Ok ([], visited)) ∧
  (∀ ms visited',
     extract_modules repr limit data parent_name visited = Ok (ms, visited') →
     ∀ r, r ∈ ms →
       ∃ chain d q,
         descends has_required (modules_step repr) data parent_name chain d q ∧
         r = make_module_info repr d q).
Proof.
  split.
  - rewrite extract_modules_eq. destruct data as [ | | | | | d ]; try done.
    simpl. by intros ->.
  - intros ms visited' Hex r Hr.
    apply extract_modules_sound in Hex. rewrite Forall_forall in Hex. by apply Hex.
Qed.

Lemma extract_modules_only_from_modules_witness :
  is_module wrapper = false ∧
  extract_modules sample_repr 3 wrapper (JStr "") ∅ = Ok ([], ∅).
Proof.
  split; [reflexivity|].
  exact (proj1 (extract_modules_only_from_modules sample_repr 3 wrapper (JStr "") ∅)
               eq_refl).
Defined.

(** C3, as amended.  Every record comes from a module [d] reached with the
    full path [q] of its parent ([q] is the empty string at the root).  Its
    [full_path] is [q], a ['/'] and its own name when [q] is not empty, and
    its own name when [q] is empty: at the root, and below a module whose
    full path is the empty string. *)
Theorem extract_modules_full_path repr limit data ms visited' :
  extract_modules repr limit data (JStr "") ∅ = Ok (ms, visited') →
  ∀ r, r ∈ ms →
    ∃ chain d q,
      descends has_required (modules_step repr) data (JStr "") chain d q ∧
      r = make_module_info repr d q ∧
      (chain = [] → q = JStr "" ∧ full_path r = name r) ∧
      full_path r
      = (if truthy q then JStr (py_str repr q +:+ "/" +:+ py_str repr (name r))
         else name r) ∧
      (∀ s n, q = JStr s → name r = JStr n →
         full_path r = JStr (if decide (s = "") then n else s +:+ "/" +:+ n)).
Proof.
  intros Hex r Hr. apply extract_modules_sound in Hex.
  rewrite Forall_forall in Hex. destruct (Hex r Hr) as (chain & d & q & Hdesc & ->).
  exists chain, d, q. split_and!; try done.
  - intros ->. by inversion Hdesc.
  - simpl. intros s n -> ->. apply join_name_strings.
Qed.

Lemma extract_modules_full_path_witness :
  ∃ ms visited',
    extract_modules sample_repr 2 top_resolved (JStr "") ∅ = Ok (ms, visited') ∧
    full_path <$> ms = [JStr "cpu"; JStr "cpu/alu"; JStr "cpu/alu/adder"] ∧
    ∀ r, r ∈ ms →
      ∃ chain d q,
        descends has_required (modules_step sample_repr) top_resolved (JStr "")
          chain d q ∧
        r = make_module_info sample_repr d q ∧
        (chain = [] → q = JStr "" ∧ full_path r = name r) ∧
        full_path r
        = (if truthy q
           then JStr (py_str sample_repr q +:+ "/" +:+ py_str sample_repr (name r))
           else name r) ∧
        (∀ s n, q = JStr s → name r = JStr n →
           full_path r = JStr (if decide (s = "") then n else s +:+ "/" +:+ n)).
Proof.
  eexists _, _. split; [vm_compute; reflexivity|]. split; [reflexivity|].
  refine (extract_modules_full_path sample_repr 2 top_resolved _ _ _).
  vm_compute. reflexivity.
Defined.

(** C3 as stated fails: below a root whose name is the empty string, [alu]
    has the full path ["alu"], not the root's full path, ['/'] and ["alu"]. *)
Lemma extract_modules_below_unnamed_root :
  ∃ root child rest visited',
    extract_modules sample_repr 2 unnamed_root (JStr "") ∅
      = Ok (root :: child :: rest, visited') ∧
    name root = JStr "" ∧ full_path root = JStr "" ∧
    name child = JStr "alu" ∧ parent_field child = JNull ∧
    full_path child = JStr "alu" ∧
    full_path child ≠ JStr ("" +:+ "/" +:+ "alu").
Proof.
  eexists _, _, _, _. split; [vm_compute; reflexivity|]. by split_and!.
Qed.

(** ** Test-case extractor *)



(** C7, as amended.  Every record comes from a module [d] reached below the
    ancestors [chain]; its [module_path] is the path accumulated over these
    ancestors, the module itself left out: from the empty string, an
    ancestor replaces an empty path by its name and appends ['/'] and its
    name to any other.  That is the empty string for a root-level module,
    and the names of the ancestors joined with slashes when none of them is
    empty. *)
Theorem extract_testcases_module_path repr limit data tcs visited' :
  extract_testcases repr limit data (JStr "") ∅ = Ok (tcs, visited') →
  ∀ r, r ∈ tcs →
    ∃ chain d,
      descends has_name (testcases_step repr) data (JStr "") chain d (module_path r) ∧
      module r = dict_get_default "name" JNull d ∧
      module_path r = foldl (join_name repr) (JStr "") chain ∧
      (chain = [] → module_path r = JStr "") ∧
      (∀ names, chain = JStr <$> names → Forall (λ n, n ≠ "") names →
         module_path r = JStr (slash_joined names)).
Proof.
  intros Hex r Hr. apply extract_testcases_sound in Hex.
  rewrite Forall_forall in Hex. destruct (Hex r Hr) as (chain & d & q & Hdesc & Hown).
  apply own_testcases_fields in Hown as [Hmod Hpath]. subst q.
  assert (module_path r = foldl (join_name repr) (JStr "") chain) as Hfold
    by by eapply descends_path.
  exists chain, d. split_and!; try done.
  - intros ->. by rewrite Hfold.
  - intros names -> Hne. rewrite Hfold. by apply foldl_join_names.
Qed.

Lemma extract_testcases_module_path_witness :
  ∃ tcs visited',
    extract_testcases sample_repr 2 cpu_fpu_alu (JStr "") ∅ = Ok (tcs, visited') ∧
    (λ r, (module r, module_path r)) <$> tcs
      = [(JStr "cpu", JStr ""); (JStr "cpu", JStr "");
         (JStr "alu", JStr "cpu/fpu")] ∧
    ∀ r, r ∈ tcs →
      ∃ chain d,
        descends has_name (testcases_step sample_repr) cpu_fpu_alu
          (JStr "") chain d (module_path r) ∧
        module r = dict_get_default "name" JNull d ∧
        module_path r = foldl (join_name sample_repr) (JStr "") chain ∧
        (chain = [] → module_path r = JStr "") ∧
        (∀ names, chain = JStr <$> names → Forall (λ n, n ≠ "") names →
           module_path r = JStr (slash_joined names)).
Proof.
  eexists _, _. split; [vm_compute; reflexivity|]. split; [reflexivity|].
  refine (extract_testcases_module_path sample_repr 2 _ _ _ _).
  vm_compute. reflexivity.
Defined.

(** C7 as stated fails: below a root whose name is the empty string and
    below [alu], the test case of [adder] has the module path ["alu"], while
    the names of its ancestors joined with slashes are ["/alu"]. *)
Lemma extract_testcases_below_unnamed_root :
  ∃ r visited',
    extract_testcases sample_repr 2 unnamed_root (JStr "") ∅ = Ok ([r], visited') ∧
    module r = JStr "adder" ∧
    module_path r = JStr "alu" ∧
    slash_joined [""; "alu"] = "/alu" ∧
    module_path r ≠ JStr (slash_joined [""; "alu"]).
Proof.
  eexists _, _. split; [vm_compute; reflexivity|]. by split_and!.
Qed.

(** C9.  In a module that is visited, an entry of the test-case list that
    is a mapping without ['name'] gives a record whose test name is
    ["test_<index>"], the index being the position of the entry in the list,
    counted from zero. *)
Theorem unnamed_test_case_gets_index
    repr limit d module_name visited current_module k test_config
    test_case_list idx tc tcs visited' :
  dict_get "name" d = Some current_module →
  hash_key current_module = Ok k → k ∉ visited →
  dict_get "test" d = Some (JDict test_config) →
  dict_get "test_case" test_config = Some (JList test_case_list) →
  test_case_list !! idx = Some (JDict tc) →
  dict_get "name" tc = None →
  extract_testcases repr limit (JDict d) module_name visited = Ok (tcs, visited') →
  ∃ r, r ∈ tcs ∧
       r = make_testcase_info current_module module_name test_config idx tc ∧
       test_name r = JStr ("test_" +:+ pretty idx).
Proof.
  intros Hn Hk Hnew Htest Hcases Hidx Hnoname.
  rewrite extract_testcases_eq, Hn, Hk. simpl. rewrite decide_False by done.
  destruct (walk_submodules _ _ _) as [[subs v1]|e]; simpl; [|done].
  intros [= <- <-]. eexists. split; [|split; [reflexivity|]].
  - apply elem_of_app. left. unfold own_testcases. rewrite Htest.
    assert (truthy (JDict test_config) = true) as ->
      by by destruct test_config.
    unfold dict_get_default at 1. rewrite Hcases. simpl.
    by apply (enumerate_cases_lookup _ _ _ 0).
  - simpl. unfold dict_get_default. by rewrite Hnoname.
Qed.

Lemma unnamed_test_case_gets_index_witness :
  ∃ tcs visited',
    extract_testcases sample_repr 1 (JDict alu_under_cpu) (JStr "cpu") ∅
      = Ok (tcs, visited') ∧
    ∃ r, r ∈ tcs ∧
         r = make_testcase_info (JStr "alu") (JStr "cpu") two_cases 1
               [("run_cmd", JStr "make full")] ∧
         test_name r = JStr "test_1".
Proof.
  eexists _, _. split; [vm_compute; reflexivity|].
  refine (unnamed_test_case_gets_index sample_repr 1 alu_under_cpu (JStr "cpu") ∅
            (JStr "alu") (KStr "alu") two_cases _ 1 [("run_cmd", JStr "make full")]
            _ _ eq_refl eq_refl _ eq_refl eq_refl eq_refl eq_refl _).
  - set_solver.
  - vm_compute. reflexivity.
Defined.

(** ** Schema validator adapter *)

(** C8.  Whatever the files hold and whatever the engine does,
    [validate_json] returns success or a failure whose message falls in one
    of four classes: file not found, invalid JSON, validation error, or
    unexpected error. *)
Theorem validate_json_closed_outcomes
    fs enoent (RefResolver : Type)
    (from_schema : json → gmap key json → result RefResolver)
    (validate : json → json → RefResolver → result ())
    limit schema_path json_path resolve_refs :
  let outcome := validate_json fs enoent RefResolver from_schema validate
                   limit schema_path json_path resolve_refs in
  outcome = (true, None) ∨
  (∃ e, outcome = (false, Some ("File not found: " +:+ e))) ∨
  (∃ e, outcome = (false, Some ("Invalid JSON format in " +:+ path_str json_path
                                +:+ ": " +:+ e))) ∨
  (∃ at_path message,
     outcome = (false, Some ("Validation error at '" +:+ at_path +:+ "': "
                             +:+ message))) ∨
  (∃ e, outcome = (false, Some ("Unexpected error: " +:+ e))).
Proof.
  intros outcome. subst outcome. unfold validate_json.
  destruct (validate_json_try _ _ _ _ _ _ _ _ _) as [[]|[]].
  - by left.
  - right. left. by eexists.
  - right. right. left. by eexists.
  - right. right. right. left. by eexists _, _.
  - right. right. right. right. by eexists.
  - right. right. right. right. by eexists.
  - right. right. right. right. by eexists.
  - right. right. right. right. by eexists.
Qed.

(** * Further properties of the scripts *)

(** ** The resolver *)



Lemma traverse_agree {A B} (f g : A → result B) l r :
  (∀ x rx, x ∈ l → f x = rx → rx ≠ Raise RecursionError → g x = rx) →
  traverse f l = r → r ≠ Raise RecursionError → traverse g l = r.
Proof.
  revert r. induction l as [|x l IH]; intros r Hfg; simpl; [by intros <-|].
  assert (∀ r', traverse f l = r' → r' ≠ Raise RecursionError → traverse g l = r')
    as IH'.
  { intros r'. apply IH. intros x' rx Hin. apply Hfg. by right. }
  destruct (f x) as [y|e] eqn:Hx; simpl.
  - rewrite (Hfg x (Ok y)); [|by left|done|done]. simpl.
    destruct (traverse f l) as [ys|e] eqn:Hl; simpl.
    + intros <- _. by rewrite (IH' (Ok ys) eq_refl).
    + intros <- Hne. rewrite (IH' (Raise e) eq_refl); [done|].
      intros [= ->]. by apply Hne.
  - intros <- Hne. rewrite (Hfg x (Raise e)); [done | by left | done |].
    intros [= ->]. by apply Hne.
Qed.









(** X4.  The resolver keeps the shape of what it does not replace: a list
    is resolved item by item, in order and to the same length; a mapping
    without ['$ref'] keeps its keys, in order, with every value resolved. *)
Theorem resolve_refs_keeps_shape fs enoent limit current_base v :
  (∀ l, resolve_refs fs enoent limit (JList l) current_base = Ok v →
     ∃ ys, v = JList ys ∧ length ys = length l ∧
           ∀ i x, l !! i = Some x →
             ∃ y, ys !! i = Some y ∧
                  resolve_refs fs enoent limit x current_base = Ok y) ∧
  (∀ d, dict_get "$ref" d = None →
     resolve_refs fs enoent limit (JDict d) current_base = Ok v →
     ∃ ys, v = JDict ys ∧ ys.*1 = d.*1 ∧
           ∀ i k x, d !! i = Some (k, x) →
             ∃ y, ys !! i = Some (k, y) ∧
                  resolve_refs fs enoent limit x current_base = Ok y).
Proof.
  split.
  - intros l. rewrite resolve_refs_list.
    destruct (traverse _ l) as [ys|e] eqn:Htr; simpl; [|done].
    intros [= <-]. apply traverse_ok in Htr. exists ys.
    split_and!; [done | symmetry; by eapply Forall2_length |].
    intros i x Hi. destruct (Forall2_lookup_l _ _ _ _ _ Htr Hi) as (y & Hy & Hres).
    by exists y.
  - intros d Href. rewrite resolve_refs_dict, Href. unfold resolve_mapping.
    destruct (traverse _ d) as [ys|e] eqn:Htr; simpl; [|done].
    intros [= <-]. apply traverse_ok in Htr. exists ys. split_and!; [done | |].
    + clear Href. induction Htr as [|[k x] [k' y] d ys Hxy _ IH]; [done|].
      simpl in *. destruct (resolve_refs _ _ _ x _); simplify_eq/=. by f_equal.
    + intros i k x Hi.
      destruct (Forall2_lookup_l _ _ _ _ _ Htr Hi) as ([k' y] & Hy & Hres).
      simpl in Hres. destruct (resolve_refs _ _ _ x _) as [y'|]; simplify_eq/=.
      by exists y.
Qed.

Lemma resolve_refs_keeps_shape_witness :
  ∃ ys, top_resolved = JDict ys ∧
        ys.*1 = ["name"; "filepath"; "docpath"; "submodules"].
Proof.
  destruct (proj2 (resolve_refs_keeps_shape sample_fs sample_enoent 2
                     (parent top_json) top_resolved)
              [("name", JStr "cpu"); ("filepath", JStr "rtl/cpu.v");
               ("docpath", JStr "doc/cpu.md");
               ("submodules", JList [JDict [("$ref", JStr "./sub/alu.json")]])]
              eq_refl eq_refl) as (ys & Hys & Hkeys & _).
  exists ys. by split.
Defined.

(** X5.  A result that the resolver reaches within a budget is the result
    under every larger budget: beyond what the chain of files needs, the
    recursion limit changes nothing. *)
Theorem resolve_refs_budget_monotone fs enoent limit limit' obj current_base :
  (limit ≤ limit')%nat →
  resolve_refs fs enoent limit obj current_base ≠ Raise RecursionError →
  resolve_refs fs enoent limit' obj current_base
  = resolve_refs fs enoent limit obj current_base.
Proof.
  revert limit' obj current_base.
  induction limit as [limit IHlimit] using lt_wf_ind.
  intros limit' obj. induction obj as [ | b | n | s | l IHl | d IHd ] using json_ind';
    intros base Hle; try by rewrite !resolve_refs_scalar.
  - rewrite !resolve_refs_list. intros Hne.
    rewrite (traverse_agree (λ item, resolve_refs fs enoent limit item base)
               (λ item, resolve_refs fs enoent limit' item base) l
               (traverse (λ item, resolve_refs fs enoent limit item base) l));
      [done | | done |].
    + intros x rx Hx <- Hrx. rewrite Forall_forall in IHl. by apply IHl.
    + intros Heq. by rewrite Heq in Hne.
  - rewrite !resolve_refs_dict. destruct (dict_get "$ref" d) as [r|] eqn:Href.
    + unfold resolve_reference. destruct r as [ | | | s | | ]; try done.
      destruct (is_relative s); [|done]. destruct (negb _); [done|].
      destruct (open_json fs enoent _) as [ref_data|e]; simpl; [|done].
      destruct limit as [|limit0]; [done|].
      destruct limit' as [|limit1]; [lia|].
      intros Hne. apply IHlimit; [lia | lia | done].
    + unfold resolve_mapping. intros Hne.
      rewrite (traverse_agree
                 (λ kv, v ← resolve_refs fs enoent limit kv.2 base; Ok (kv.1, v))
                 (λ kv, v ← resolve_refs fs enoent limit' kv.2 base; Ok (kv.1, v)) d
                 (traverse (λ kv, v ← resolve_refs fs enoent limit kv.2 base;
                                  Ok (kv.1, v)) d));
        [done | | done |].
      * intros [k x] rx Hx <- Hrx. simpl in *. rewrite Forall_forall in IHd.
        pose proof (IHd _ Hx base Hle) as Hsame. simpl in Hsame.
        rewrite Hsame; [done|].
        intros Heq. by rewrite Heq in Hrx.
      * intros Heq. by rewrite Heq in Hne.
Qed.

Lemma resolve_refs_budget_monotone_witness :
  (2 ≤ 7)%nat ∧
  resolve_refs sample_fs sample_enoent 2 top_doc (parent top_json) = Ok top_resolved ∧
  resolve_refs sample_fs sample_enoent 7 top_doc (parent top_json)
  = resolve_refs sample_fs sample_enoent 2 top_doc (parent top_json).
Proof.
  split; [lia|]. split; [vm_compute; reflexivity|].
  apply (resolve_refs_budget_monotone sample_fs sample_enoent 2 7 top_doc
           (parent top_json)); [lia|].
  vm_compute. discriminate.
Defined.

(** X6.  No cycle is detected.  A set of files each of which is a reference
    node to another file of the set (a file that refers to itself, two
    files that refer to each other) is never resolved: under every budget
    loading one of them ends in [RecursionError]. *)
Theorem reference_cycle_exhausts_budget fs enoent (on_cycle : path → Prop) :
  (∀ p, on_cycle p →
     ∃ d r, fs p = Some (Text (JDict d)) ∧ dict_get "$ref" d = Some (JStr r) ∧
            is_relative r = true ∧ on_cycle (joinpath (parent p) r)) →
  ∀ limit p, on_cycle p →
    load_json_with_refs fs enoent limit p = Raise RecursionError.
Proof.
  intros Hcycle.
  assert (∀ limit p d r,
    on_cycle p → fs p = Some (Text (JDict d)) →
    dict_get "$ref" d = Some (JStr r) → is_relative r = true →
    on_cycle (joinpath (parent p) r) →
    resolve_refs fs enoent limit (JDict d) (parent p) = Raise RecursionError) as Hloop.
  { induction limit as [|limit IH]; intros p d r Hp Hfs Href Hrel Hnext.
    all: rewrite resolve_refs_dict, Href; unfold resolve_reference;
      rewrite Hrel; unfold exists_file, open_json.
    all: destruct (Hcycle _ Hnext) as (d' & r' & Hfs' & Href' & Hrel' & Hnext').
    all: rewrite Hfs'; simpl.
    - done.
    - by eapply IH. }
  intros limit p Hp. destruct (Hcycle p Hp) as (d & r & Hfs & Href & Hrel & Hnext).
  unfold load_json_with_refs, open_json. rewrite Hfs. simpl. by eapply Hloop.
Qed.

Lemma reference_cycle_exhausts_budget_witness :
  load_json_with_refs loop_fs sample_enoent 50 top_json = Raise RecursionError.
Proof.
  refine (reference_cycle_exhausts_budget loop_fs sample_enoent (λ p, p = top_json)
            _ 50 top_json eq_refl).
  intros p ->. exists [("$ref", JStr "./top.json")], "./top.json".
  split_and!; reflexivity.
Defined.

(** ** The extractors *)

(** X7.  With a recursion budget of at least the depth of the document,
    [extract_modules] returns its records unless a module name cannot be
    hashed: the only exception is the [TypeError] of the [visited] set. *)
Theorem extract_modules_returns repr limit data parent_name visited :
  (depth data ≤ S limit)%nat →
  (∃ ms visited',
     extract_modules repr limit data parent_name visited = Ok (ms, visited')) ∨
  (∃ msg, extract_modules repr limit data parent_name visited = Raise (TypeError msg)).
Proof.
  intros Hdepth.
  destruct (extract_modules repr limit data parent_name visited)
    as [[ms visited']|e] eqn:Hex; [left; by eexists _, _|].
  right. apply extract_modules_within_budget in Hex as [msg ->]; [|done].
  by exists msg.
Qed.

Lemma extract_modules_returns_witness :
  (depth top_resolved ≤ 5)%nat ∧
  ((∃ ms visited',
      extract_modules sample_repr 4 top_resolved (JStr "") ∅ = Ok (ms, visited')) ∨
   (∃ msg, extract_modules sample_repr 4 top_resolved (JStr "") ∅
           = Raise (TypeError msg))).
Proof.
  split; [vm_compute; lia|].
  apply (extract_modules_returns sample_repr 4 top_resolved (JStr "") ∅).
  vm_compute. lia.
Defined.

(** X8.  With a recursion budget of at least the depth of the document,
    [extract_testcases] returns its records unless a module name cannot be
    hashed: the only exception is the [TypeError] of the [visited] set. *)
Theorem extract_testcases_returns repr limit data module_name visited :
  (depth data ≤ S limit)%nat →
  (∃ tcs visited',
     extract_testcases repr limit data module_name visited = Ok (tcs, visited')) ∨
  (∃ msg, extract_testcases repr limit data module_name visited
          = Raise (TypeError msg)).
Proof.
  intros Hdepth.
  destruct (extract_testcases repr limit data module_name visited)
    as [[tcs visited']|e] eqn:Hex; [left; by eexists _, _|].
  right. apply extract_testcases_within_budget in Hex as [msg ->]; [|done].
  by exists msg.
Qed.

Lemma extract_testcases_returns_witness :
  (depth two_alus ≤ 10)%nat ∧
  ((∃ tcs visited',
      extract_testcases sample_repr 9 two_alus (JStr "") ∅ = Ok (tcs, visited')) ∨
   (∃ msg, extract_testcases sample_repr 9 two_alus (JStr "") ∅
           = Raise (TypeError msg))).
Proof.
  split; [vm_compute; lia|].
  apply (extract_testcases_returns sample_repr 9 two_alus (JStr "") ∅).
  vm_compute. lia.
Defined.

Lemma parents_first_nil p0 : parents_first p0 [].
Proof. by intros i r. Qed.

Lemma parents_first_app p0 o1 o2 :
  parents_first p0 o1 → parents_first p0 o2 → parents_first p0 (o1 ++ o2).
Proof.
  intros H1 H2 i r. rewrite lookup_app_Some. intros [Hi|[Hle Hi]].
  - destruct (H1 i r Hi) as [?|(j & r' & Hj & Hr' & Hp)]; [by left|].
    right. exists j, r'. split_and!; [done | | done].
    apply lookup_app_Some. by left.
  - destruct (H2 _ r Hi) as [?|(j & r' & Hj & Hr' & Hp)]; [by left|].
    right. exists (length o1 + j), r'. split_and!; [lia | | done].
    apply lookup_app_Some. right. split; [lia|].
    by replace (length o1 + j - length o1) with j by lia.
Qed.

Lemma truthy_join_name repr p n :
  truthy p = true → truthy (join_name repr p n) = true.
Proof.
  intros Hp. unfold join_name. rewrite Hp. simpl.
  apply negb_true_iff, bool_decide_eq_false. by destruct (py_str repr p).
Qed.

Lemma extract_modules_parents_first repr limit :
  ∀ data p v ms v',
    extract_modules repr limit data p v = Ok (ms, v') →
    parents_first (if truthy p then p else JNull) ms.
Proof.
  induction limit as [limit IH] using lt_wf_ind.
  intros data p v ms v'. rewrite extract_modules_eq.
  destruct data as [ | | | | | d ]; try (intros [= <- <-]; apply parents_first_nil).
  destruct (has_required d); [|intros [= <- <-]; apply parents_first_nil].
  cbv zeta. destruct (hash_key _) as [k|e]; simpl; [|done].
  case_decide; [intros [= <- <-]; apply parents_first_nil|].
  destruct (walk_submodules _ _ _) as [[subs v1]|e] eqn:Hw; simpl; [|done].
  intros [= <- <-].
  set (f := join_name repr p (dict_get_default "name" JNull d)) in *.
  apply (walk_submodules_inv
           (λ o _ _, parents_first (if truthy f then f else JNull) o)) in Hw.
  - intros [|i] r; simpl.
    + intros [= <-]. by left.
    + intros Hi. destruct (Hw i r Hi) as [Hp|(j & r' & Hj & Hr' & Hp)].
      * destruct (truthy f) eqn:Hf.
        -- right. exists 0, (make_module_info repr d p).
           split_and!; [lia | done | by rewrite Hp].
        -- left. rewrite Hp. destruct (truthy p) eqn:Htp; [|done].
           unfold f in Hf. by rewrite truthy_join_name in Hf.
      * right. exists (S j), r'. split_and!; [lia | done | done].
  - intros _. apply parents_first_nil.
  - intros o1 o2 _ _ _. apply parents_first_app.
  - intros c w o w' _.
    apply (recursive_call_inv
      (λ l x, extract_modules repr l x f)
      (λ _ _ o _, parents_first (if truthy f then f else JNull) o)).
    intros limit' Hlt x w1 o1 w1'. by apply IH.
Qed.

(** X9.  [extract_modules] lists a module before its sub-modules: a record
    whose [parent] field is set stands after the record whose full path is
    that field. *)
Theorem extract_modules_parent_before_child repr limit data ms visited' :
  extract_modules repr limit data (JStr "") ∅ = Ok (ms, visited') →
  ∀ i r, ms !! i = Some r → parent_field r ≠ JNull →
    ∃ j r', j < i ∧ ms !! j = Some r' ∧ full_path r' = parent_field r.
Proof.
  intros Hex i r Hi Hparent.
  apply extract_modules_parents_first in Hex. by destruct (Hex i r Hi).
Qed.

Lemma extract_modules_parent_before_child_witness :
  ∃ ms visited' r,
    extract_modules sample_repr 2 top_resolved (JStr "") ∅ = Ok (ms, visited') ∧
    ms !! 2 = Some r ∧ parent_field r = JStr "cpu/alu" ∧
    ∃ j r', j < 2 ∧ ms !! j = Some r' ∧ full_path r' = parent_field r.
Proof.
  eexists _, _, _. split; [vm_compute; reflexivity|]. split; [reflexivity|].
  split; [reflexivity|].
  refine (extract_modules_parent_before_child sample_repr 2 top_resolved _ _ _
            2 _ _ _).
  - vm_compute. reflexivity.
  - reflexivity.
  - done.
Defined.

Lemma walk_submodules_singleton {A}
    (f : json → gset key → result (list A * gset key)) c v :
  c ≠ [] →
  walk_submodules f (Some (JList [JDict c])) v = walk_submodules f (Some (JDict c)) v.
Proof.
  intros Hc. unfold walk_submodules.
  assert (truthy (JDict c) = true) as -> by by destruct c.
  simpl. destruct (f (JDict c) v) as [[o w]|e]; simpl; [|done].
  by rewrite app_nil_r.
Qed.

(** X10.  Sub-modules given as one non-empty mapping and as a list of that
    one mapping are walked alike: two modules that differ only in this give
    the same records, the same [visited] set and the same exceptions, in
    both extractors. *)
Theorem submodules_mapping_or_singleton
    repr limit (d1 d2 : dict) c parent_name visited :
  c ≠ [] →
  (∀ k, k ≠ "submodules" → dict_get k d1 = dict_get k d2) →
  dict_get "submodules" d1 = Some (JDict c) →
  dict_get "submodules" d2 = Some (JList [JDict c]) →
  extract_modules repr limit (JDict d1) parent_name visited
  = extract_modules repr limit (JDict d2) parent_name visited ∧
  extract_testcases repr limit (JDict d1) parent_name visited
  = extract_testcases repr limit (JDict d2) parent_name visited.
Proof.
  intros Hc Hsame H1 H2.
  assert (make_module_info repr d1 parent_name = make_module_info repr d2 parent_name)
    as Hinfo.
  { unfold make_module_info, dict_get_default, dict_has.
    rewrite H1, H2, !(Hsame "name"), !(Hsame "filepath"), !(Hsame "docpath"),
      !(Hsame "test") by done.
    simpl. by destruct c. }
  split.
  - rewrite !extract_modules_eq. unfold has_required, dict_has.
    rewrite !(Hsame "name"), !(Hsame "filepath"), !(Hsame "docpath") by done.
    rewrite Hinfo, H1, H2.
    destruct (_ && _); [|done]. cbv zeta.
    destruct (hash_key _) as [k|e]; simpl; [|done].
    case_decide; [done|]. rewrite bool_decide_eq_false_2 by done. simpl.
    destruct limit as [|limit']; [done|].
    destruct (extract_modules _ _ _ _ _) as [[o w]|e]; simpl; [|done].
    by rewrite app_nil_r.
  - rewrite !extract_testcases_eq.
    rewrite (Hsame "name") by done.
    destruct (dict_get "name" d2) as [n|]; [|done].
    destruct (hash_key n) as [k|e]; simpl; [|done].
    case_decide; [done|]. rewrite H1, H2, walk_submodules_singleton by done.
    unfold own_testcases. by rewrite (Hsame "test").
Qed.

Lemma submodules_mapping_or_singleton_witness :
  extract_testcases sample_repr 2
    (JDict [("name", JStr "gpu"); ("submodules", JDict alu_under_gpu)]) (JStr "") ∅
  = extract_testcases sample_repr 2
      (JDict [("name", JStr "gpu"); ("submodules", JList [JDict alu_under_gpu])])
      (JStr "") ∅.
Proof.
  refine (proj2 (submodules_mapping_or_singleton sample_repr 2
            [("name", JStr "gpu"); ("submodules", JDict alu_under_gpu)]
            [("name", JStr "gpu"); ("submodules", JList [JDict alu_under_gpu])]
            alu_under_gpu (JStr "") ∅ _ _ eq_refl eq_refl)).
  - done.
  - intros k Hk. simpl. repeat case_decide; congruence.
Defined.




(** ** The validator adapter *)







(** ** The tree of [--format tree] *)

Lemma split_slash_nonempty s : split_slash s ≠ [].
Proof.
  induction s as [|c s IH]; simpl; [done|].
  case_decide; [done|]. by destruct (split_slash s).
Qed.

Lemma split_slash_join s1 s2 :
  split_slash (s1 +:+ "/" +:+ s2) = split_slash s1 ++ split_slash s2.
Proof.
  induction s1 as [|c s1 IH].
  - done.
  - change (String c s1 +:+ "/" +:+ s2) with (String c (s1 +:+ "/" +:+ s2)).
    simpl. rewrite IH. case_decide; [done|].
    pose proof (split_slash_nonempty s1). by destruct (split_slash s1).
Qed.

Lemma tree_get_set_eq k v items : tree_get k (tree_set k v items) = Some v.
Proof.
  induction items as [|[k' t] items IH]; simpl.
  - by rewrite decide_True.
  - case_decide; simpl; [by rewrite decide_True | by rewrite decide_False].
Qed.

Lemma tree_get_set_ne k k' v items :
  k ≠ k' → tree_get k' (tree_set k v items) = tree_get k' items.
Proof.
  intros Hne. induction items as [|[k0 t] items IH]; simpl.
  - by rewrite decide_False.
  - case_decide; simpl; [subst; by rewrite !decide_False|].
    case_decide; [done | exact IH].
Qed.

(** A path that runs through a leaf cannot be inserted. *)
Lemma tree_insert_through_leaf ps q qs :
  ∀ t, ps ≠ [] → leaf_at ps t →
       tree_insert (ps ++ q :: qs) t = Raise (TypeError none_not_iterable).
Proof.
  induction ps as [|p ps IH]; intros t Hps Hleaf; [done|].
  unfold leaf_at in Hleaf. simpl in Hleaf. destruct t as [|items]; [done|].
  destruct (tree_get p items) as [c|] eqn:Hget; [|done].
  simpl. unfold tree_has. rewrite Hget. simpl.
  rewrite bool_decide_eq_false_2 by by destruct ps.
  rewrite Hget. simpl. destruct ps as [|p' ps'].
  - simpl in Hleaf. by injection Hleaf as ->.
  - by rewrite (IH c).
Qed.

(** An insertion that succeeds leaves the leaves where they are. *)
Lemma tree_insert_keeps_leaf qs :
  ∀ t t' ps, ps ≠ [] → tree_insert qs t = Ok t' → leaf_at ps t → leaf_at ps t'.
Proof.
  induction qs as [|q rest IH]; intros t t' ps Hps; simpl; [by intros [= <-]|].
  destruct t as [|items]; [done|].
  destruct ps as [|p ps']; [done|]. unfold leaf_at. simpl.
  destruct (tree_get p items) as [c|] eqn:Hget; [|done].
  set (items1 := if tree_has q items then items
                 else tree_set q (if bool_decide (rest = []) then TNone else TDict [])
                        items).
  assert (tree_get p items1 = Some c) as Hget1.
  { unfold items1, tree_has. destruct (decide (q = p)) as [->|Hne].
    - rewrite Hget. simpl. exact Hget.
    - destruct (bool_decide (is_Some _)); [done|]. by rewrite tree_get_set_ne. }
  case_bool_decide as Hlast.
  - intros [= <-]. simpl. by rewrite Hget1.
  - destruct (tree_insert rest _) as [child|e] eqn:Hins; simpl; [|done].
    intros [= <-] Hleaf. simpl. destruct (decide (q = p)) as [->|Hne].
    + rewrite tree_get_set_eq. rewrite Hget1 in Hins. simpl in Hins.
      destruct ps' as [|p'' ps''].
      * simpl in Hleaf. injection Hleaf as ->. by destruct rest.
      * by apply (IH c child (p'' :: ps'')).
    + by rewrite tree_get_set_ne, Hget1.
Qed.

(** In the empty tree a path ends in a leaf. *)
Lemma tree_insert_fresh ps :
  ps ≠ [] → ∃ t, tree_insert ps (TDict []) = Ok t ∧ leaf_at ps t.
Proof.
  induction ps as [|p rest IH]; intros Hps; [done|]. simpl.
  case_bool_decide as Hlast.
  - subst rest. eexists. split; [done|]. unfold leaf_at. simpl.
    by rewrite decide_True.
  - simpl. rewrite decide_True by done. simpl.
    destruct (IH Hlast) as (child & -> & Hleaf). simpl.
    eexists. split; [done|]. unfold leaf_at. simpl.
    rewrite decide_True by done. simpl. by rewrite decide_True.
Qed.

Lemma build_tree_from_after_leaf rest :
  ∀ t ps, ps ≠ [] → leaf_at ps t →
    (∃ r2 s q qs, r2 ∈ rest ∧ full_path r2 = JStr s ∧ split_slash s = ps ++ q :: qs) →
    ∀ t', build_tree_from rest t ≠ Ok t'.
Proof.
  induction rest as [|r rest IH]; intros t ps Hps Hleaf (r2 & s & q & qs & Hin & Hs & Hsplit) t'.
  { by apply elem_of_nil in Hin. }
  simpl. apply elem_of_cons in Hin as [<-|Hin].
  - rewrite Hs. simpl. rewrite Hsplit, tree_insert_through_leaf by done. done.
  - destruct (py_split _) as [parts|e]; simpl; [|done].
    destruct (tree_insert parts t) as [t1|e] eqn:Hins; simpl; [|done].
    apply (IH t1 ps Hps); [by eapply tree_insert_keeps_leaf|].
    by exists r2, s, q, qs.
Qed.

(** X15.  [build_tree] cannot hold a module and something below it: when
    the path of a later record continues the path of the first one with a
    ['/'], as the path of a sub-module does, no tree is returned.  The first
    record became a leaf ([None]) and the later one looks inside it. *)
Theorem build_tree_fails_below_first r1 rest r2 s1 s2 :
  full_path r1 = JStr s1 → r2 ∈ rest → full_path r2 = JStr (s1 +:+ "/" +:+ s2) →
  ∀ t, build_tree (r1 :: rest) ≠ Ok t.
Proof.
  intros H1 Hin H2 t. unfold build_tree. simpl. rewrite H1. simpl.
  destruct (tree_insert_fresh (split_slash s1) (split_slash_nonempty s1))
    as (t1 & -> & Hleaf). simpl.
  apply (build_tree_from_after_leaf rest t1 (split_slash s1));
    [apply split_slash_nonempty | done |].
  pose proof (split_slash_nonempty s2).
  destruct (split_slash s2) as [|q qs] eqn:Hs2; [done|].
  exists r2, (s1 +:+ "/" +:+ s2), q, qs. split_and!; [done | done |].
  by rewrite split_slash_join, Hs2.
Qed.

Lemma build_tree_fails_below_first_witness :
  ∃ r1 rest visited',
    extract_modules sample_repr 2 top_resolved (JStr "") ∅ = Ok (r1 :: rest, visited') ∧
    full_path <$> (r1 :: rest) = [JStr "cpu"; JStr "cpu/alu"; JStr "cpu/alu/adder"] ∧
    ∀ t, build_tree (r1 :: rest) ≠ Ok t.
Proof.
  eexists _, _, _. split; [vm_compute; reflexivity|]. split; [reflexivity|].
  refine (build_tree_fails_below_first _ _ _ "cpu" "alu" _ _ _).
  - reflexivity.
  - apply elem_of_cons. left. reflexivity.
  - reflexivity.
Defined.

(** ** The groups of [--format summary] *)

Lemma by_module_append_keys k m tc (g : list module_group) :
  (by_module_append k m tc g).*1.*1
  = if decide (k ∈ g.*1.*1) then g.*1.*1 else g.*1.*1 ++ [k].
Proof.
  induction g as [|[[k' m'] cs] g IH]; cbn [by_module_append fmap list_fmap fst].
  - destruct (decide (k ∈ [])) as [Hin|]; [by apply elem_of_nil in Hin | done].
  - destruct (decide (k = k')) as [->|Hk]; cbn [fmap list_fmap fst].
    + rewrite decide_True; [done|]. by left.
    + rewrite IH. destruct (decide (k ∈ g.*1.*1)) as [Hin|Hin].
      * rewrite decide_True; [done|]. by right.
      * rewrite decide_False; [done|]. by intros [?|?]%elem_of_cons.
Qed.

Lemma by_module_append_get k m tc (g : list module_group) k' :
  by_module_get k' (by_module_append k m tc g)
  = if decide (k' = k)
    then Some (match by_module_get k g with
               | Some (m0, cs) => (m0, cs ++ [tc])
               | None => (m, [tc])
               end)
    else by_module_get k' g.
Proof.
  induction g as [|[[k0 m0] cs0] g IH]; simpl.
  - by case_decide.
  - destruct (decide (k = k0)) as [->|Hk]; simpl.
    + by destruct (decide (k' = k0)) as [->|Hk'].
    + rewrite IH. destruct (decide (k' = k0)) as [->|Hk0]; [|done].
      by rewrite decide_False.
Qed.

Lemma by_module_append_total k m tc (g : list module_group) :
  sum_list (length <$> (by_module_append k m tc g).*2)
  = S (sum_list (length <$> g.*2)).
Proof.
  induction g as [|[[k0 m0] cs0] g IH]; simpl in *; [done|].
  case_decide; simpl in *.
  - rewrite length_app. simpl. lia.
  - unfold fmap in IH |- *. rewrite IH. lia.
Qed.

Lemma records_of_snoc k done tc :
  records_of k (done ++ [tc])
  = records_of k done ++ (if decide (hash_key (module tc) = Ok k) then [tc] else []).
Proof.
  unfold records_of. rewrite filter_app. by f_equal.
Qed.

Lemma group_by_module_from_spec tcs :
  ∀ done g g',
    NoDup (g.*1.*1) →
    (∀ k, by_module_get k g
          = match records_of k done with
            | [] => None
            | tc0 :: _ => Some (module tc0, records_of k done)
            end) →
    group_by_module_from tcs g = Ok g' →
    NoDup (g'.*1.*1) ∧
    (∀ k, by_module_get k g'
          = match records_of k (done ++ tcs) with
            | [] => None
            | tc0 :: _ => Some (module tc0, records_of k (done ++ tcs))
            end) ∧
    sum_list (length <$> g'.*2) = sum_list (length <$> g.*2) + length tcs.
Proof.
  induction tcs as [|tc tcs IH]; intros done g g' Hnd Hget; simpl.
  - intros [= <-]. rewrite app_nil_r. split_and!; [done | done | lia].
  - destruct (hash_key (module tc)) as [k|e] eqn:Hk; simpl; [|done].
    intros Hloop. apply (IH (done ++ [tc])) in Hloop.
    + destruct Hloop as (Hnd' & Hget' & Hsum). rewrite <- app_assoc in Hget'.
      split_and!; [done | done |]. rewrite Hsum, by_module_append_total. lia.
    + rewrite by_module_append_keys. case_decide; [done|].
      apply NoDup_app. split_and!; [done | | apply NoDup_singleton].
      intros k' Hin ->%list_elem_of_singleton. done.
    + intros k'. rewrite by_module_append_get, records_of_snoc, Hk.
      destruct (decide (k' = k)) as [->|Hne].
      * rewrite decide_True by done. rewrite Hget.
        by destruct (records_of k done).
      * rewrite decide_False by congruence. by rewrite app_nil_r.
Qed.

Lemma group_by_module_groups testcases by_module :
  group_by_module testcases = Ok by_module →
  NoDup (by_module.*1.*1) ∧
  (∀ k, by_module_get k by_module
        = match records_of k testcases with
          | [] => None
          | tc0 :: _ => Some (module tc0, records_of k testcases)
          end) ∧
  sum_list (length <$> by_module.*2) = length testcases.
Proof.
  intros Hg. apply (group_by_module_from_spec testcases [] [] by_module) in Hg.
  - done.
  - constructor.
  - done.
Qed.

(** X16.  The groups of the summary: [by_module] has one entry for every
    module that has a test case, under the module as it first occurs; the
    entry holds the test cases of that module, in their order; and the
    entries hold as many test cases as there are in all. *)
Theorem group_by_module_spec testcases by_module :
  group_by_module testcases = Ok by_module →
  NoDup (by_module.*1.*1) ∧
  (∀ k, by_module_get k by_module
        = match records_of k testcases with
          | [] => None
          | tc0 :: _ => Some (module tc0, records_of k testcases)
          end) ∧
  sum_list (length <$> by_module.*2) = length testcases.
Proof. apply group_by_module_groups. Qed.

Lemma group_by_module_spec_witness :
  ∃ tcs visited' (by_module : list module_group),
    extract_testcases sample_repr 2 cpu_fpu_alu (JStr "") ∅ = Ok (tcs, visited') ∧
    group_by_module tcs = Ok by_module ∧
    (λ g : module_group, (g.1.2, test_name <$> g.2)) <$> by_module
      = [(JStr "cpu", [JStr "smoke"; JStr "test_1"]);
         (JStr "alu", [JStr "gpu_only"])] ∧
    sum_list (length <$> by_module.*2) = length tcs.
Proof.
  eexists _, _, _. split; [vm_compute; reflexivity|].
  split; [vm_compute; reflexivity|]. split; [reflexivity|].
  refine (proj2 (proj2 (group_by_module_spec _ _ _))).
  vm_compute. reflexivity.
Defined.

Lemma group_by_module_from_hashable tcs :
  (∀ r, r ∈ tcs → ∃ k, hash_key (module r) = Ok k) →
  ∀ g0, ∃ g, group_by_module_from tcs g0 = Ok g.
Proof.
  induction tcs as [|tc tcs IH]; intros Hhash g0; simpl; [by eexists|].
  destruct (Hhash tc) as (k & ->); [by left|]. simpl.
  apply IH. intros r Hr. apply Hhash. by right.
Qed.

(** X17.  For the test cases of a document the grouping cannot fail, and
    every group of the summary holds the test cases of one module of the
    document, exactly as that module lists them. *)
Theorem group_by_module_one_source repr limit data module_name visited tcs visited' :
  extract_testcases repr limit data module_name visited = Ok (tcs, visited') →
  ∃ by_module,
    group_by_module tcs = Ok by_module ∧
    ∀ k m cases, by_module_get k by_module = Some (m, cases) →
      ∃ chain d q,
        descends has_name (testcases_step repr) data module_name chain d q ∧
        hash_key (dict_get_default "name" JNull d) = Ok k ∧
        cases = own_testcases (dict_get_default "name" JNull d) q d.
Proof.
  intros Hex. apply extract_testcases_one_source in Hex as (_ & Hnew & Hsrc).
  destruct (group_by_module_from_hashable tcs) with (g0 := @nil module_group)
    as [g Hg].
  { intros r Hr. destruct (Hnew r Hr) as (k & Hk & _). by exists k. }
  fold (group_by_module tcs) in Hg.
  exists g. split; [done|]. intros k m cases Hget.
  apply group_by_module_groups in Hg as (_ & Hspec & _).
  rewrite Hspec in Hget.
  destruct (Hsrc k) as [Hnone|(chain & d & q & Hdesc & Hk & Hrec)].
  - by rewrite Hnone in Hget.
  - exists chain, d, q. split_and!; [done | done |].
    destruct (records_of k tcs); simplify_eq/=. done.
Qed.

Lemma group_by_module_one_source_witness :
  ∃ by_module : list module_group,
    group_by_module
      (match extract_testcases sample_repr 2 two_alus (JStr "") ∅ with
       | Ok (tcs, _) => tcs
       | Raise _ => []
       end) = Ok by_module ∧
    (λ g : module_group, (g.1.2, test_name <$> g.2)) <$> by_module
      = [(JStr "alu", [JStr "smoke"; JStr "test_1"])].
Proof.
  destruct (group_by_module_one_source sample_repr 2 two_alus (JStr "") ∅
              (match extract_testcases sample_repr 2 two_alus (JStr "") ∅ with
               | Ok (tcs, _) => tcs
               | Raise _ => []
               end)
              (match extract_testcases sample_repr 2 two_alus (JStr "") ∅ with
               | Ok (_, v) => v
               | Raise _ => ∅
               end)) as (by_module & Hg & _).
  { vm_compute. reflexivity. }
  exists by_module. split; [done|].
  vm_compute in Hg. injection Hg as <-. reflexivity.
Defined.

(** ** [main] of [extract_modules.py] *)

Lemma extract_modules_head repr limit data p v ms v' :
  extract_modules repr limit data p v = Ok (ms, v') →
  match ms with
  | [] => True
  | r :: _ => ∃ d, data = JDict d ∧ r = make_module_info repr d p
  end.
Proof.
  rewrite extract_modules_eq.
  destruct data as [ | | | | | d ]; try by intros [= <- <-].
  destruct (has_required d); [|by intros [= <- <-]].
  cbv zeta. destruct (hash_key _) as [k|e]; simpl; [|done].
  case_decide; [by intros [= <- <-]|].
  destruct (walk_submodules _ _ _) as [[subs v1]|e]; simpl; [|done].
  intros [= <- <-]. by exists d.
Qed.

Lemma extract_modules_second repr limit d p v r1 r2 rest v' :
  extract_modules repr limit (JDict d) p v = Ok (r1 :: r2 :: rest, v') →
  r1 = make_module_info repr d p ∧
  ∃ x, full_path r2 = join_name repr (full_path r1) x.
Proof.
  intros Hex. pose proof (extract_modules_head _ _ _ _ _ _ _ Hex) as (d' & [= <-] & ->).
  split; [done|]. revert Hex. rewrite extract_modules_eq.
  destruct (has_required d); [|done].
  cbv zeta. destruct (hash_key _) as [k|e]; simpl; [|done].
  case_decide; [done|].
  destruct (walk_submodules _ _ _) as [[subs v1]|e] eqn:Hw; simpl; [|done].
  intros [= -> ->].
  set (f := join_name repr p (dict_get_default "name" JNull d)) in *.
  apply (walk_submodules_inv
           (λ o _ _, match o with
                     | [] => True
                     | r :: _ => ∃ x, full_path r = join_name repr f x
                     end)) in Hw; [done | done | |].
  - intros [|r o1] o2 ? ? ?; simpl; done.
  - intros c w o w' _.
    apply (recursive_call_inv
      (λ l x, extract_modules repr l x f)
      (λ _ _ o _, match o with
                  | [] => True
                  | r :: _ => ∃ x, full_path r = join_name repr f x
                  end)).
    intros limit' _ x w1 o1 w1' Hex.
    apply extract_modules_head in Hex. destruct o1 as [|r o1]; [done|].
    destruct Hex as (d' & -> & ->). by eexists.
Qed.

Lemma build_tree_second r1 r2 rest s1 s2 :
  full_path r1 = JStr s1 → full_path r2 = JStr (s1 +:+ "/" +:+ s2) →
  build_tree (r1 :: r2 :: rest) = Raise (TypeError none_not_iterable).
Proof.
  intros H1 H2. unfold build_tree. simpl. rewrite H1, H2. simpl.
  destruct (tree_insert_fresh (split_slash s1) (split_slash_nonempty s1))
    as (t1 & -> & Hleaf). simpl.
  rewrite split_slash_join. pose proof (split_slash_nonempty s2).
  destruct (split_slash s2) as [|q qs]; [done|].
  rewrite tree_insert_through_leaf; [done | apply split_slash_nonempty | done].
Qed.

(** X18.  When the resolved document is not itself a module, [main] finds
    no module: it exits with 1, writes nothing and prints ["No modules found
    in the JSON file."], whatever the format. *)
Theorem main_modules_no_module
    fs enoent repr resolve_limit extract_limit open_output dump_json format_left
    json_path format data :
  exists_file fs json_path = true →
  load_json_with_refs fs enoent resolve_limit json_path = Ok data →
  is_module data = false →
  main_modules fs enoent repr resolve_limit extract_limit open_output dump_json
    format_left json_path format
  = (1, "", "No modules found in the JSON file." +:+ nl).
Proof.
  intros Hexists Hload Hmod. unfold main_modules. rewrite Hexists, Hload. simpl.
  rewrite extract_modules_eq. destruct data as [ | | | | | d ]; try done.
  simpl in Hmod. by rewrite Hmod.
Qed.

Lemma main_modules_no_module_witness :
  main_modules wrapper_fs sample_enoent sample_repr 2 2 (Ok ()) (λ _, "")
    (λ _ _, Ok "") top_json FormatTable
  = (1, "", "No modules found in the JSON file." +:+ nl).
Proof.
  apply (main_modules_no_module wrapper_fs sample_enoent sample_repr 2 2 (Ok ())
           (λ _, "") (λ _ _, Ok "") top_json FormatTable wrapper); reflexivity.
Defined.

(** X19.  The tree format does not survive a hierarchy: when the root
    module has a non-empty name and a second record was extracted, [main]
    with [--format tree] exits with 1, writes nothing and prints the
    [TypeError] of [build_tree]. *)
Theorem main_modules_tree_fails
    fs enoent repr resolve_limit extract_limit open_output dump_json format_left
    json_path d n r1 r2 rest visited' :
  exists_file fs json_path = true →
  load_json_with_refs fs enoent resolve_limit json_path = Ok (JDict d) →
  dict_get "name" d = Some (JStr n) → n ≠ "" →
  extract_modules repr extract_limit (JDict d) (JStr "") ∅
    = Ok (r1 :: r2 :: rest, visited') →
  open_output = Ok () →
  main_modules fs enoent repr resolve_limit extract_limit open_output dump_json
    format_left json_path FormatTree
  = (1, "", "Error: " +:+ none_not_iterable +:+ nl).
Proof.
  intros Hexists Hload Hname Hn Hex Hout. unfold main_modules.
  rewrite Hexists, Hload. simpl. rewrite Hex, Hout.
  rewrite bool_decide_eq_false_2 by done. unfold render.
  apply extract_modules_second in Hex as (Hr1 & x & Hr2).
  assert (full_path r1 = JStr n) as Hp1.
  { rewrite Hr1. simpl. unfold dict_get_default. by rewrite Hname. }
  rewrite Hp1 in Hr2. unfold join_name in Hr2. simpl in Hr2.
  rewrite bool_decide_eq_false_2 in Hr2 by done. simpl in Hr2.
  by rewrite (build_tree_second r1 r2 rest n (py_str repr x)).
Qed.

Lemma main_modules_tree_fails_witness :
  main_modules resolved_fs sample_enoent sample_repr 2 2 (Ok ()) (λ _, "")
    (λ _ _, Ok "") top_json FormatTree
  = (1, "", "Error: argument of type 'NoneType' is not iterable" +:+ nl).
Proof.
  refine (main_modules_tree_fails resolved_fs sample_enoent sample_repr 2 2 (Ok ())
            (λ _, "") (λ _ _, Ok "") top_json _ "cpu" _ _ _ _ _ _ _ _ _ _).
  - reflexivity.
  - reflexivity.
  - reflexivity.
  - done.
  - vm_compute. reflexivity.
  - reflexivity.
Defined.

(** X20.  A document that exposes a reference to a missing file makes
    [main] exit with 1 without writing anything, whatever the format. *)
Theorem main_modules_missing_reference
    fs enoent repr resolve_limit extract_limit open_output dump_json format_left
    json_path format doc :
  fs json_path = Some (Text doc) →
  exposes_missing_ref fs (parent json_path) doc = true →
  ∃ err,
    main_modules fs enoent repr resolve_limit extract_limit open_output dump_json
      format_left json_path format
    = (1, "", err).
Proof.
  intros Hfs Hmiss. unfold main_modules, exists_file, load_json_with_refs, open_json.
  rewrite Hfs. simpl.
  destruct (resolve_refs fs enoent resolve_limit doc (parent json_path))
    as [data|e] eqn:Hres; simpl.
  - by destruct (exposed_missing_ref_not_ok fs enoent resolve_limit doc
                   (parent json_path) Hmiss data).
  - by eexists.
Qed.

Lemma main_modules_missing_reference_witness :
  ∃ err,
    main_modules sparse_fs sample_enoent sample_repr 2 2 (Ok ()) (λ _, "")
      (λ _ _, Ok "") top_json FormatJson
    = (1, "", err).
Proof.
  apply (main_modules_missing_reference sparse_fs sample_enoent sample_repr 2 2
           (Ok ()) (λ _, "") (λ _ _, Ok "") top_json FormatJson top_doc);
    reflexivity.
Defined.

(** X21.  For a single record whose path has no ['/'], the tree format
    writes one line: the last-child connector and the path. *)
Theorem render_tree_single
    (dump_json : list module_info → string)
    (format_left : nat → json → result string) r n :
  full_path r = JStr n → split_slash n = [n] →
  render dump_json format_left FormatTree [r] = ("└── " +:+ n +:+ nl, None).
Proof.
  intros Hpath Hsplit. unfold render, build_tree. simpl.
  rewrite Hpath. simpl. rewrite Hsplit. simpl. by do 2 f_equal.
Qed.

Lemma render_tree_single_witness :
  render (λ _, "") (λ _ _, Ok "") FormatTree
    [make_module_info sample_repr [("name", JStr "adder")] (JStr "")]
  = ("└── adder" +:+ nl, None).
Proof.
  apply (render_tree_single (λ _, "") (λ _ _, Ok "")
           (make_module_info sample_repr [("name", JStr "adder")] (JStr ""))
           "adder"); reflexivity.
Defined.
